(** * The write-behind appointment cache of the retell scheduling server

    A shallow embedding of the class [CacheService] (the service the routes
    import as [services/cache.service]), of the part of [IntakeQService] it
    calls, of the [appointment_cache] and [appointments] tables of the schema
    and of the [/book-appointment] route, followed by the properties of the
    synchronisation queue.

    The code is asynchronous TypeScript over a Postgres database (through the
    drizzle query builder) and an HTTP client.  Both are modelled by explicit
    state passing: a [world] holds the two tables and two effect counters, and
    an [environment] holds what the program cannot decide itself (the clock,
    the JSON builtins, database faults and the replies of the downstream
    API).  A computation is a function from a world to an outcome (a returned
    value or a thrown error) and a new world. *)

From Stdlib Require Import Ascii.
From stdpp Require Import gmap strings list pretty.

Local Open Scope Z_scope.

(** ** JavaScript values, errors and outcomes *)

Module Js.

(** A thrown [Error]; [message] is [None] when [error.message] is
    [undefined]. *)
Record Error := { message : option string }.

(** The result of evaluating an expression or awaiting a promise. *)
Inductive outcome (A : Type) :=
| Returned (a : A)
| Threw (e : Error).
Arguments Returned {A} a.
Arguments Threw {A} e.

(** JSON members of the flat objects exchanged with the downstream API. *)
Inductive prim :=
| Null
| Str (s : string)
| Num (n : Z).

(** The values that flow through [payload: any] and [response.data]:
    [undefined], a primitive, or an object with primitive members. *)
Inductive value :=
| Undefined
| Prim (p : prim)
| Obj (members : gmap string prim).

Global Instance prim_eq_dec : EqDecision prim.
Proof. solve_decision. Defined.

Global Instance value_eq_dec : EqDecision value.
Proof. solve_decision. Defined.

(** [v.k]: reading a property of [undefined] or [null] throws a TypeError;
    a missing property reads as [undefined] ([None]). *)
Definition get_property (v : value) (k : string) : outcome (option prim) :=
  match v with
  | Undefined | Prim Null =>
      Threw {| message := Some "Cannot read properties of undefined" |}
  | Prim _ => Returned None
  | Obj members => Returned (members !! k)
  end.

(** [m || d] on a string that may be [undefined]: the empty string is falsy
    too. *)
Definition or_else (m : option string) (d : string) : string :=
  match m with
  | Some s => if decide (s = "") then d else s
  | None => d
  end.

(** [n + 1] on a nullable number coerces [null] to [0].  Counts are far
    below 2^53, where the arithmetic of JavaScript numbers is exact. *)
Definition to_number (n : option Z) : Z := default 0 n.

End Js.

(** ** The schema ([pgTable] declarations) *)

Inductive syncStatusEnum := pending | synced | failed.

Global Instance syncStatusEnum_eq_dec : EqDecision syncStatusEnum.
Proof. solve_decision. Defined.

(** Rows of [appointment_cache].  Only [id], [appointmentId] and [payload]
    are [notNull]; the other columns are nullable and read as [option].
    Timestamps are milliseconds since the epoch. *)
Module appointmentCache.
Record row := {
  id : Z;
  appointmentId : Z;
  syncStatus : option syncStatusEnum;
  retryCount : option Z;
  lastSyncAttempt : option Z;
  errorMessage : option string;
  payload : string;
  createdAt : option Z;
  syncedAt : option Z;
}.
End appointmentCache.

(** Rows of [appointments], keyed by their primary key in the table. *)
Module appointments.
Record row := {
  intakeqId : option string;
  clientId : Z;
  providerId : Z;
  dateTime : string;
  duration : Z;
  type : string;
  format : string;
  status : option string;
}.

Definition with_intakeqId (v : option string) (r : row) : row :=
  {| intakeqId := v; clientId := clientId r; providerId := providerId r;
     dateTime := dateTime r; duration := duration r; type := type r;
     format := format r; status := status r |}.
End appointments.

(** ** The world: database tables and effect counters *)

Record world := {
  (** the rows of [appointment_cache], listed in the order of their
      insertion, and its [serial] sequence; the order in which a scan of the
      database meets the rows is not part of the model, and a query without
      [ORDER BY] is taken to meet them in this order *)
  cache : list appointmentCache.row;
  cache_seq : Z;
  (** [appointments] and its [serial] sequence *)
  appts : gmap Z appointments.row;
  appts_seq : Z;
  (** number of [POST /appointments] requests sent to IntakeQ so far *)
  intakeq_posts : nat;
  (** number of SQL statements issued so far *)
  db_statements : nat;
}.

Definition empty_world : world :=
  {| cache := []; cache_seq := 1; appts := ∅; appts_seq := 1;
     intakeq_posts := 0; db_statements := 0 |}.

Definition with_cache (rows : list appointmentCache.row) (w : world) : world :=
  {| cache := rows; cache_seq := cache_seq w; appts := appts w;
     appts_seq := appts_seq w; intakeq_posts := intakeq_posts w;
     db_statements := db_statements w |}.

Definition with_cache_seq (n : Z) (w : world) : world :=
  {| cache := cache w; cache_seq := n; appts := appts w;
     appts_seq := appts_seq w; intakeq_posts := intakeq_posts w;
     db_statements := db_statements w |}.

Definition with_appts (m : gmap Z appointments.row) (w : world) : world :=
  {| cache := cache w; cache_seq := cache_seq w; appts := m;
     appts_seq := appts_seq w; intakeq_posts := intakeq_posts w;
     db_statements := db_statements w |}.

Definition with_appts_seq (n : Z) (w : world) : world :=
  {| cache := cache w; cache_seq := cache_seq w; appts := appts w;
     appts_seq := n; intakeq_posts := intakeq_posts w;
     db_statements := db_statements w |}.

Definition count_post (w : world) : world :=
  {| cache := cache w; cache_seq := cache_seq w; appts := appts w;
     appts_seq := appts_seq w; intakeq_posts := S (intakeq_posts w);
     db_statements := db_statements w |}.

Definition count_statement (w : world) : world :=
  {| cache := cache w; cache_seq := cache_seq w; appts := appts w;
     appts_seq := appts_seq w; intakeq_posts := intakeq_posts w;
     db_statements := S (db_statements w) |}.

(** ** The statements the code issues through the query builder *)

(** [.where(eq(schema.appointmentCache.id, i))] and
    [.where(eq(schema.appointmentCache.syncStatus, s))]. *)
Inductive cache_where :=
| where_id (i : Z)
| where_syncStatus (s : syncStatusEnum).

Definition matches (c : cache_where) (r : appointmentCache.row) : bool :=
  match c with
  | where_id i => bool_decide (appointmentCache.id r = i)
  | where_syncStatus s => bool_decide (appointmentCache.syncStatus r = Some s)
  end.

(** The object given to [.set({...})] on [appointment_cache]: [None] is a key
    that is absent, so its column is not written. *)
Record cache_set := {
  set_syncStatus : option syncStatusEnum;
  set_retryCount : option Z;
  set_lastSyncAttempt : option Z;
  set_errorMessage : option (option string);
  set_syncedAt : option Z;
}.

Definition apply_set (s : cache_set) (r : appointmentCache.row)
  : appointmentCache.row :=
  {| appointmentCache.id := appointmentCache.id r;
     appointmentCache.appointmentId := appointmentCache.appointmentId r;
     appointmentCache.syncStatus :=
       match set_syncStatus s with
       | Some v => Some v
       | None => appointmentCache.syncStatus r
       end;
     appointmentCache.retryCount :=
       match set_retryCount s with
       | Some v => Some v
       | None => appointmentCache.retryCount r
       end;
     appointmentCache.lastSyncAttempt :=
       match set_lastSyncAttempt s with
       | Some v => Some v
       | None => appointmentCache.lastSyncAttempt r
       end;
     appointmentCache.errorMessage :=
       match set_errorMessage s with
       | Some v => v
       | None => appointmentCache.errorMessage r
       end;
     appointmentCache.payload := appointmentCache.payload r;
     appointmentCache.createdAt := appointmentCache.createdAt r;
     appointmentCache.syncedAt :=
       match set_syncedAt s with
       | Some v => Some v
       | None => appointmentCache.syncedAt r
       end |}.

(** [UPDATE appointment_cache SET ... WHERE ...] on the rows of the table:
    each row that matches gets the new values, under the [id] it has. *)
Definition update_where (s : cache_set) (c : cache_where)
    (rows : list appointmentCache.row) : list appointmentCache.row :=
  (λ r, if matches c r then apply_set s r else r) <$> rows.

(** [SELECT * FROM appointment_cache WHERE ... LIMIT n]; no [ORDER BY], so
    which rows a limit keeps is up to the database: the model takes the first
    [n] in the order of the list. *)
Definition select_where (c : cache_where) (limit : option nat)
    (rows : list appointmentCache.row) : list appointmentCache.row :=
  let found := filter (λ r, matches c r) rows in
  match limit with
  | Some n => take n found
  | None => found
  end.

(** The row of the task with primary key [i], if there is one. *)
Definition lookup_id (i : Z) (rows : list appointmentCache.row)
  : option appointmentCache.row :=
  List.find (λ r, bool_decide (appointmentCache.id r = i)) rows.

(** The values of [.insert(schema.appointments).values({...})]. *)
Record appointments_values := {
  v_clientId : Z;
  v_providerId : Z;
  v_dateTime : string;
  v_duration : Z;
  v_type : string;
  v_format : string;
  v_status : string;
}.

Inductive statement :=
| InsertAppointmentCache (appointmentId : Z) (payload : option string)
| SelectAppointmentCache (c : cache_where) (limit : option nat)
| UpdateAppointmentCache (s : cache_set) (c : cache_where)
| UpdateAppointments (intakeqId : Js.prim) (id : Z)
| InsertAppointments (v : appointments_values).

(** ** The environment *)

Record environment := {
  (** the clock read by [new Date()] and by [defaultNow()] *)
  Date_now : world → Z;
  (** [JSON.stringify]; [None] is [undefined] *)
  JSON_stringify : Js.value → option string;
  (** [JSON.parse] *)
  JSON_parse : string → Js.outcome Js.value;
  (** a statement the database (or the driver) rejects for a reason outside
      the modelled constraints: connection lost, a deadlock, a violated
      constraint on a table that is not modelled *)
  db_fault : world → statement → option Js.Error;
  (** [this.api.post('/appointments', appointmentData)], giving
      [response.data] *)
  api_post_appointments : world → Js.value → Js.outcome Js.value;
}.

(** The database answers every statement. *)
Definition db_available (env : environment) : Prop :=
  ∀ w s, db_fault env w s = None.

(** ** Computations: state passing with exceptions *)

Definition M (A : Type) : Type := world → Js.outcome A * world.

Definition ret {A} (a : A) : M A := λ w, (Js.Returned a, w).

Definition throw {A} (e : Js.Error) : M A := λ w, (Js.Threw e, w).

Definition bind {A B} (c : M A) (k : A → M B) : M B :=
  λ w, match c w with
       | (Js.Returned a, w') => k a w'
       | (Js.Threw e, w') => (Js.Threw e, w')
       end.

(** [try { body } catch (error) { handler }] *)
Definition try_catch {A} (body : M A) (handler : Js.Error → M A) : M A :=
  λ w, match body w with
       | (Js.Returned a, w') => (Js.Returned a, w')
       | (Js.Threw e, w') => handler e w'
       end.

(** An expression evaluated without touching the world. *)
Definition eval {A} (o : Js.outcome A) : M A := λ w, (o, w).

Notation "'await' x <- c ;; k" := (bind c (λ x, k))
  (at level 10, x name, c at level 99, k at level 200).

(** [for (const x of xs) { await body(x) }]: a throw leaves the loop. *)
Fixpoint for_of {A} (xs : list A) (body : A → M unit) : M unit :=
  match xs with
  | [] => ret tt
  | x :: rest => await _ <- body x ;; for_of rest body
  end.

(** ** The database layer *)

Section Database.
Variable env : environment.

(** [new Date()] *)
Definition new_Date : M Z := λ w, (Js.Returned (Date_now env w), w).

(** Every statement is counted.  A faulted statement changes nothing else;
    the others run against the tables. *)
Definition db_execute {A} (stmt : statement) (run : M A) : M A :=
  λ w, let w1 := count_statement w in
       match db_fault env w stmt with
       | Some e => (Js.Threw e, w1)
       | None => run w1
       end.

(** [db.insert(schema.appointmentCache).values({ appointmentId, payload,
    syncStatus: 'pending', retryCount: 0 })].  The key of a value that is
    [undefined] is dropped, so [payload] falls to its [notNull] constraint;
    [appointmentId] must reference a row of [appointments].  [id] and
    [createdAt] take their defaults; the value [id] takes from the sequence
    is spent also when a constraint then rejects the row. *)
Definition db_insert_appointmentCache (appointmentId : Z)
    (payload : option string) : M unit :=
  db_execute (InsertAppointmentCache appointmentId payload) (λ w,
    let rejected := with_cache_seq (cache_seq w + 1) w in
    match payload with
    | None =>
        (Js.Threw {| Js.message := Some "null value in column payload" |},
         rejected)
    | Some text =>
        match appts w !! appointmentId with
        | None =>
            (Js.Threw
               {| Js.message := Some "violates foreign key constraint" |},
             rejected)
        | Some _ =>
            let r := {| appointmentCache.id := cache_seq w;
                        appointmentCache.appointmentId := appointmentId;
                        appointmentCache.syncStatus := Some pending;
                        appointmentCache.retryCount := Some 0;
                        appointmentCache.lastSyncAttempt := None;
                        appointmentCache.errorMessage := None;
                        appointmentCache.payload := text;
                        appointmentCache.createdAt := Some (Date_now env w);
                        appointmentCache.syncedAt := None |} in
            (Js.Returned tt,
             with_cache_seq (cache_seq w + 1) (with_cache (cache w ++ [r]) w))
        end
    end).

(** [db.select().from(schema.appointmentCache).where(c).limit(n)] *)
Definition db_select_appointmentCache (c : cache_where) (limit : option nat)
  : M (list appointmentCache.row) :=
  db_execute (SelectAppointmentCache c limit) (λ w,
    (Js.Returned (select_where c limit (cache w)), w)).

(** [db.update(schema.appointmentCache).set(s).where(c)] *)
Definition db_update_appointmentCache (s : cache_set) (c : cache_where)
  : M unit :=
  db_execute (UpdateAppointmentCache s c) (λ w,
    (Js.Returned tt, with_cache (update_where s c (cache w)) w)).

(** The text stored in a [varchar] column for a JSON primitive. *)
Definition varchar_of (p : Js.prim) : option string :=
  match p with
  | Js.Null => None
  | Js.Str s => Some s
  | Js.Num n => Some (pretty n)
  end.

(** [db.update(schema.appointments).set({ intakeqId: v })
       .where(eq(schema.appointments.id, i))].
    The query builder drops the key of a value that is [undefined], and
    [.set] throws when no key is left: no statement is issued then.  A key
    that no row has updates nothing. *)
Definition db_update_appointments (v : option Js.prim) (i : Z) : M unit :=
  match v with
  | None => throw {| Js.message := Some "No values to set" |}
  | Some p =>
      db_execute (UpdateAppointments p i) (λ w,
        (Js.Returned tt,
         with_appts
           (alter (appointments.with_intakeqId (varchar_of p)) i (appts w)) w))
  end.

(** The members of [appointment_type] and [appointment_format]. *)
Definition appointmentTypeEnum : list string :=
  ["comprehensive_evaluation"; "follow_up"; "ketamine_consultation"]%string.

Definition appointmentFormatEnum : list string :=
  ["telehealth"; "in_person"]%string.

(** [db.insert(schema.appointments).values(v).returning()], giving the
    [id] of the new row.  The enum columns reject other texts when the values
    are read, before a row is formed; the foreign keys to [clients] and
    [providers] are left to [db_fault]. *)
Definition db_insert_appointments (v : appointments_values) : M Z :=
  db_execute (InsertAppointments v) (λ w,
    if bool_decide (v_type v ∈ appointmentTypeEnum) &&
       bool_decide (v_format v ∈ appointmentFormatEnum)
    then
      let r := {| appointments.intakeqId := None;
                  appointments.clientId := v_clientId v;
                  appointments.providerId := v_providerId v;
                  appointments.dateTime := v_dateTime v;
                  appointments.duration := v_duration v;
                  appointments.type := v_type v;
                  appointments.format := v_format v;
                  appointments.status := Some (v_status v) |} in
      (Js.Returned (appts_seq w),
       with_appts_seq (appts_seq w + 1)
         (with_appts (<[appts_seq w := r]> (appts w)) w))
    else (Js.Threw {| Js.message := Some "invalid input value for enum" |},
          w)).

End Database.

(** ** The downstream client (class [IntakeQService]) *)

Module IntakeQService.

(** [interface IntakeQAppointment] *)
Record IntakeQAppointment := {
  Id : string;
  ClientId : string;
  ProviderId : string;
  DateTime : string;
  Duration : Z;
  ServiceName : string;
  Status : string;
}.

(** The object that a reply of this interface is at run time. *)
Definition as_object (a : IntakeQAppointment) : Js.value :=
  Js.Obj (list_to_map
    [("Id", Js.Str (Id a)); ("ClientId", Js.Str (ClientId a));
     ("ProviderId", Js.Str (ProviderId a)); ("DateTime", Js.Str (DateTime a));
     ("Duration", Js.Num (Duration a));
     ("ServiceName", Js.Str (ServiceName a));
     ("Status", Js.Str (Status a))]%string).

Section with_environment.
Variable env : environment.

(** [createAppointment]: posts the appointment and returns [response.data];
    whatever the request throws is replaced by one fixed error. *)
Definition createAppointment (appointmentData : Js.value) : M Js.value :=
  try_catch
    (λ w, (api_post_appointments env w appointmentData, count_post w))
    (λ error,
       throw {| Js.message := Some "Failed to create appointment in IntakeQ" |}).

End with_environment.
End IntakeQService.

(** ** The cache service (class [CacheService]) *)

Module CacheService.

(** The objects given to [.set] by the three updates of the service. *)
Definition set_synced (now : Z) : cache_set :=
  {| set_syncStatus := Some synced; set_retryCount := None;
     set_lastSyncAttempt := None; set_errorMessage := None;
     set_syncedAt := Some now |}.

Definition set_failed (newRetryCount now : Z) (msg : string) : cache_set :=
  {| set_syncStatus := Some failed; set_retryCount := Some newRetryCount;
     set_lastSyncAttempt := Some now; set_errorMessage := Some (Some msg);
     set_syncedAt := None |}.

Definition set_retry (newRetryCount now : Z) (msg : string) : cache_set :=
  {| set_syncStatus := None; set_retryCount := Some newRetryCount;
     set_lastSyncAttempt := Some now; set_errorMessage := Some (Some msg);
     set_syncedAt := None |}.

Definition set_reset : cache_set :=
  {| set_syncStatus := Some pending; set_retryCount := Some 0;
     set_lastSyncAttempt := None; set_errorMessage := Some None;
     set_syncedAt := None |}.

Section with_environment.
Variable env : environment.

(** [cacheAppointment(appointmentId, payload)] *)
Definition cacheAppointment (appointmentId : Z) (payload : Js.value)
  : M unit :=
  db_insert_appointmentCache env appointmentId (JSON_stringify env payload).

(** The [catch] block of [syncSingleAppointment]. *)
Definition record_failure (entry : appointmentCache.row) (error : Js.Error)
  : M unit :=
  let newRetryCount := Js.to_number (appointmentCache.retryCount entry) + 1 in
  let maxRetries := 5 in
  if bool_decide (newRetryCount >= maxRetries) then
    await now <- new_Date env ;;
    db_update_appointmentCache env
      (set_failed newRetryCount now
         (Js.or_else (Js.message error) "Unknown error"))
      (where_id (appointmentCache.id entry))
  else
    await now <- new_Date env ;;
    db_update_appointmentCache env
      (set_retry newRetryCount now
         (Js.or_else (Js.message error) "Unknown error"))
      (where_id (appointmentCache.id entry)).

(** The [try] block of [syncSingleAppointment]. *)
Definition attempt_sync (entry : appointmentCache.row) : M unit :=
  await payload <- eval (JSON_parse env (appointmentCache.payload entry)) ;;
  await response <- IntakeQService.createAppointment env payload ;;
  await response_id <- eval (Js.get_property response "id") ;;
  await _ <- db_update_appointments env response_id
               (appointmentCache.appointmentId entry) ;;
  await now <- new_Date env ;;
  db_update_appointmentCache env (set_synced now)
    (where_id (appointmentCache.id entry)).

(** [syncSingleAppointment(entry)] *)
Definition syncSingleAppointment (entry : appointmentCache.row) : M unit :=
  try_catch (attempt_sync entry) (record_failure entry).

(** [syncPendingAppointments()] *)
Definition syncPendingAppointments : M unit :=
  try_catch
    (await pendingEntries <-
       db_select_appointmentCache env (where_syncStatus pending) (Some 10%nat) ;;
     if bool_decide (length pendingEntries = 0%nat) then ret tt
     else for_of pendingEntries syncSingleAppointment)
    (λ error, ret tt).

(** [retryFailedSyncs()] *)
Definition retryFailedSyncs : M unit :=
  db_update_appointmentCache env set_reset (where_syncStatus failed).

End with_environment.
End CacheService.

(** ** The booking route ([router.post('/book-appointment', ...)]) *)

Module Routes.

(** [type.replace('_', ' ')]: the first underscore only. *)
Fixpoint replace_underscore (s : string) : string :=
  match s with
  | EmptyString => EmptyString
  | String c rest =>
      if Ascii.eqb c "_"%char then String " "%char rest
      else String c (replace_underscore rest)
  end.

Definition durations : gmap string Z :=
  list_to_map [("comprehensive_evaluation", 60); ("follow_up", 15);
               ("ketamine_consultation", 30)]%string.

Section with_environment.
Variable env : environment.

(** [POST /book-appointment] with a body whose fields have the expected
    types; the result is the HTTP status of the response. *)
Definition book_appointment (clientId providerId : Z)
    (dateTime type format : string) : M Z :=
  try_catch
    (if bool_decide (clientId = 0) || bool_decide (providerId = 0) ||
        bool_decide (dateTime = "") || bool_decide (type = "") ||
        bool_decide (format = "")
     then ret 400
     else
       let duration := default 60 (durations !! type) in
       await appointment_id <-
         db_insert_appointments env
           {| v_clientId := clientId; v_providerId := providerId;
              v_dateTime := dateTime; v_duration := duration;
              v_type := type; v_format := format;
              v_status := "scheduled" |} ;;
       let payload := Js.Obj (list_to_map
         [("ClientId", Js.Num clientId); ("ProviderId", Js.Num providerId);
          ("DateTime", Js.Str dateTime); ("Duration", Js.Num duration);
          ("ServiceName", Js.Str (replace_underscore type))]%string) in
       await _ <- CacheService.cacheAppointment env appointment_id payload ;;
       ret 200)
    (λ error, ret 500).

End with_environment.
End Routes.

(** ** The server as a transition system

    Request handlers and the cron job run on one event loop.  A handler of
    the queue issues a single statement; a worker cycle selects its batch and
    then takes one entry after the other, and between two entries any handler
    may run.  The step on one entry is one action: its only statement on the
    task table comes at its end and is keyed by the [id] of the entry, so
    what the handlers do while the step waits for IntakeQ is taken to come
    before the step.  In [Server] cycles do not overlap: the next one begins
    when the batch of the current one is exhausted or abandoned.  Nothing in
    the code enforces this ([cron.schedule] starts a cycle at every tick,
    whether the one before has returned or not, and the deployment notes
    propose several processes); [Overlapping] below is the system without
    the restriction. *)

Module Server.

Record state := {
  db : world;
  (** entries of the running cycle that are still to be synchronised *)
  in_flight : list appointmentCache.row;
}.

Definition initial : state := {| db := empty_world; in_flight := [] |}.

Inductive action :=
| Book (clientId providerId : Z) (dateTime type format : string)
| Enqueue (appointmentId : Z) (payload : Js.value)
| RetryFailed
| Worker.

Section with_environment.
Variable env : environment.

(** One step of the worker: begin a cycle, or synchronise the next entry of
    the running one. *)
Definition worker_step (s : state) : state :=
  match in_flight s with
  | [] =>
      match db_select_appointmentCache env (where_syncStatus pending)
              (Some 10%nat) (db s) with
      | (Js.Returned pendingEntries, w) =>
          {| db := w; in_flight := pendingEntries |}
      | (Js.Threw _, w) => {| db := w; in_flight := [] |}
      end
  | entry :: rest =>
      match CacheService.syncSingleAppointment env entry (db s) with
      | (Js.Returned _, w) => {| db := w; in_flight := rest |}
      | (Js.Threw _, w) => {| db := w; in_flight := [] |}
      end
  end.

Definition perform (s : state) (a : action) : state :=
  match a with
  | Book clientId providerId dateTime type format =>
      {| db := (Routes.book_appointment env clientId providerId dateTime
                  type format (db s)).2;
         in_flight := in_flight s |}
  | Enqueue appointmentId payload =>
      {| db := (CacheService.cacheAppointment env appointmentId payload
                  (db s)).2;
         in_flight := in_flight s |}
  | RetryFailed =>
      {| db := (CacheService.retryFailedSyncs env (db s)).2;
         in_flight := in_flight s |}
  | Worker => worker_step s
  end.

Definition run (actions : list action) : state := foldl perform initial actions.

(** The states the server can be in, and the stores it can hold. *)
Definition reachable (s : state) : Prop := ∃ actions, s = run actions.

End with_environment.
End Server.

(** ** The server with cycles that overlap

    Every tick of the cron job begins a cycle of its own, with its own batch,
    and the cycles that have begun take their entries in any interleaving. *)

Module Overlapping.

Record state := {
  db : world;
  (** for each cycle that has begun, the entries it has still to
      synchronise *)
  cycles : list (list appointmentCache.row);
}.

Definition initial : state := {| db := empty_world; cycles := [] |}.

Inductive action :=
| Book (clientId providerId : Z) (dateTime type format : string)
| Enqueue (appointmentId : Z) (payload : Js.value)
| RetryFailed
| Begin
| Step (k : nat).

Section with_environment.
Variable env : environment.

(** A tick: a new cycle selects its batch. *)
Definition begin_cycle (s : state) : state :=
  match db_select_appointmentCache env (where_syncStatus pending)
          (Some 10%nat) (db s) with
  | (Js.Returned pendingEntries, w) =>
      {| db := w; cycles := cycles s ++ [pendingEntries] |}
  | (Js.Threw _, w) => {| db := w; cycles := cycles s |}
  end.

(** The cycle at position [k] synchronises its next entry. *)
Definition step_cycle (k : nat) (s : state) : state :=
  match cycles s !! k with
  | Some (entry :: rest) =>
      match CacheService.syncSingleAppointment env entry (db s) with
      | (Js.Returned _, w) => {| db := w; cycles := <[k := rest]> (cycles s) |}
      | (Js.Threw _, w) => {| db := w; cycles := <[k := []]> (cycles s) |}
      end
  | _ => s
  end.

Definition perform (s : state) (a : action) : state :=
  match a with
  | Book clientId providerId dateTime type format =>
      {| db := (Routes.book_appointment env clientId providerId dateTime
                  type format (db s)).2;
         cycles := cycles s |}
  | Enqueue appointmentId payload =>
      {| db := (CacheService.cacheAppointment env appointmentId payload
                  (db s)).2;
         cycles := cycles s |}
  | RetryFailed =>
      {| db := (CacheService.retryFailedSyncs env (db s)).2;
         cycles := cycles s |}
  | Begin => begin_cycle s
  | Step k => step_cycle k s
  end.

Definition run (actions : list action) : state := foldl perform initial actions.

Definition reachable (s : state) : Prop := ∃ actions, s = run actions.

End with_environment.
End Overlapping.

(** ** The cache service, continued: statistics *)

(** The object [getCacheStats] returns. *)
Module Stats.
Record t := {
  pending : nat;
  synced : nat;
  failed : nat;
  total : nat;
}.
End Stats.

Section Statistics.
Variable env : environment.

(** [getCacheStats()]: three independent queries, one per state, here with
    nothing else running between them. *)
Definition getCacheStats : M Stats.t :=
  await pending_rows <-
    db_select_appointmentCache env (where_syncStatus pending) None ;;
  await synced_rows <-
    db_select_appointmentCache env (where_syncStatus synced) None ;;
  await failed_rows <-
    db_select_appointmentCache env (where_syncStatus failed) None ;;
  ret {| Stats.pending := length pending_rows;
         Stats.synced := length synced_rows;
         Stats.failed := length failed_rows;
         Stats.total := length pending_rows + length synced_rows
                        + length failed_rows |}.

(** [getCacheStats()] with the event loop at work: every [await] lets other
    handlers and the worker run, and [between1] and [between2] are what they
    do to the world between the queries. *)
Definition getCacheStats_interleaved (between1 between2 : world → world)
  : M Stats.t :=
  await pending_rows <-
    db_select_appointmentCache env (where_syncStatus pending) None ;;
  await _ <- (λ w, (Js.Returned tt, between1 w)) ;;
  await synced_rows <-
    db_select_appointmentCache env (where_syncStatus synced) None ;;
  await _ <- (λ w, (Js.Returned tt, between2 w)) ;;
  await failed_rows <-
    db_select_appointmentCache env (where_syncStatus failed) None ;;
  ret {| Stats.pending := length pending_rows;
         Stats.synced := length synced_rows;
         Stats.failed := length failed_rows;
         Stats.total := length pending_rows + length synced_rows
                        + length failed_rows |}.

End Statistics.

(** ** The administrative endpoints of the server ([app.get], [app.post]) *)

Module Api.
Section with_environment.
Variable env : environment.

(** [GET /api/cache/stats]: the status of the response and the statistics
    it carries. *)
Definition get_cache_stats : M (Z * option Stats.t) :=
  try_catch
    (await stats <- getCacheStats env ;; ret (200, Some stats))
    (λ error, ret (500, None)).

(** [POST /api/cache/retry-failed]: the status of the response. *)
Definition post_cache_retry_failed : M Z :=
  try_catch
    (await _ <- CacheService.retryFailedSyncs env ;; ret 200)
    (λ error, ret 500).

End with_environment.
End Api.

(** ** The insurance service (class [AvailityService]) *)

Module AvailityService.

(** [c.toLowerCase()] on one character.  Strings are sequences of 8-bit
    characters: the letters A to Z move to a to z and every other character
    stays as it is (the folding of letters outside ASCII is not modelled;
    none of the texts the service looks for has such a letter). *)
Definition lower_char (c : ascii) : ascii :=
  let n := nat_of_ascii c in
  if ((65 <=? n) && (n <=? 90))%nat then ascii_of_nat (n + 32) else c.

(** [s.toLowerCase()] *)
Fixpoint toLowerCase (s : string) : string :=
  match s with
  | EmptyString => EmptyString
  | String c rest => String (lower_char c) (toLowerCase rest)
  end.

(** [s.includes(t)]: [t] occurs in [s] at some position. *)
Fixpoint includes (s t : string) : bool :=
  String.prefix t s ||
  match s with
  | EmptyString => false
  | String _ rest => includes rest t
  end.

Definition inNetworkCompanies : list string :=
  ["aetna"; "florida blue"; "bcbs"; "blue cross"; "cigna"; "medicare";
   "tricare"]%string.

(** [isInNetwork(insuranceCompany)] *)
Definition isInNetwork (insuranceCompany : string) : bool :=
  existsb (λ company, includes (toLowerCase insuranceCompany) company)
    inNetworkCompanies.

(** [isAccepted(insuranceCompany, planType?)] *)
Definition isAccepted (insuranceCompany : string) (planType : option string)
  : bool :=
  let insuranceLower := toLowerCase insuranceCompany in
  if includes insuranceLower "hmo" || includes insuranceLower "medicaid"
  then false
  else isInNetwork insuranceCompany.

(** [interface AvailityTokenResponse]; [expires_in] is in seconds. *)
Record AvailityTokenResponse := {
  access_token : string;
  expires_in : Z;
  token_type : string;
}.

(** The object held in [this.tokenCache]; [expiresAt] is in milliseconds. *)
Record cached_token := {
  token : string;
  expiresAt : Z;
}.

(** The state of the service: its token cache, and the number of requests
    it has sent to the token endpoint. *)
Record service := {
  tokenCache : option cached_token;
  token_requests : nat;
}.

(** What the service cannot decide: the clock and the token endpoint. *)
Record token_environment := {
  clock : service → Z;
  post_token : service → Js.outcome AvailityTokenResponse;
}.

Section with_environment.
Variable tenv : token_environment.

(** The [try] block of [getAccessToken]: request a token, cache it with an
    expiry one minute short of its lifetime, return it. *)
Definition fetch_token (s : service) : Js.outcome string * service :=
  let s1 := {| tokenCache := tokenCache s;
               token_requests := S (token_requests s) |} in
  match post_token tenv s with
  | Js.Returned response =>
      let expires := clock tenv s1 + (expires_in response - 60) * 1000 in
      (Js.Returned (access_token response),
       {| tokenCache := Some {| token := access_token response;
                                expiresAt := expires |};
          token_requests := token_requests s1 |})
  | Js.Threw error =>
      (Js.Threw {| Js.message := Some "Failed to authenticate with Availity" |},
       s1)
  end.

(** [getAccessToken()] *)
Definition getAccessToken (s : service) : Js.outcome string * service :=
  match tokenCache s with
  | Some cached =>
      if bool_decide (expiresAt cached > clock tenv s)
      then (Js.Returned (token cached), s)
      else fetch_token s
  | None => fetch_token s
  end.

End with_environment.
End AvailityService.

(** * The vocabulary of the properties *)

Import Js IntakeQService CacheService.

(** ** Outcomes of a step of the worker *)

(** The object the [catch] block of [syncSingleAppointment] writes. *)
Definition failure_set (entry : appointmentCache.row) (error : Error)
    (now : Z) : cache_set :=
  let n := to_number (appointmentCache.retryCount entry) + 1 in
  let msg := or_else (message error) "Unknown error" in
  if bool_decide (n >= 5) then set_failed n now msg else set_retry n now msg.

(** The downstream client reported success for [entry] and both updates of
    the [try] block went through: the one of the back-reference on the
    appointment, for which the reply must have an [id] to set, and the one of
    the task row. *)
Definition sync_succeeds (env : environment) (entry : appointmentCache.row)
    (w : world) : Prop :=
  ∃ data response p,
    JSON_parse env (appointmentCache.payload entry) = Returned data ∧
    api_post_appointments env w data = Returned response ∧
    get_property response "id" = Returned (Some p) ∧
    db_fault env (count_post w)
      (UpdateAppointments p (appointmentCache.appointmentId entry)) = None ∧
    let w2 := (db_update_appointments env (Some p)
                 (appointmentCache.appointmentId entry) (count_post w)).2 in
    db_fault env w2
      (UpdateAppointmentCache (set_synced (Date_now env w2))
         (where_id (appointmentCache.id entry))) = None.

(** The request for this entry throws, whenever it is sent. *)
Definition downstream_rejects (env : environment)
    (entry : appointmentCache.row) : Prop :=
  ∃ data, JSON_parse env (appointmentCache.payload entry) = Returned data ∧
          ∀ w, ∃ error, api_post_appointments env w data = Threw error.

(** The error [createAppointment] throws. *)
Definition client_error : Error :=
  {| message := Some "Failed to create appointment in IntakeQ" |}.


(** ** The administrative reset *)

(** A failed task as the reset leaves it. *)
Definition readmitted (r : appointmentCache.row) : appointmentCache.row :=
  {| appointmentCache.id := appointmentCache.id r;
     appointmentCache.appointmentId := appointmentCache.appointmentId r;
     appointmentCache.syncStatus := Some pending;
     appointmentCache.retryCount := Some 0;
     appointmentCache.lastSyncAttempt := appointmentCache.lastSyncAttempt r;
     appointmentCache.errorMessage := None;
     appointmentCache.payload := appointmentCache.payload r;
     appointmentCache.createdAt := appointmentCache.createdAt r;
     appointmentCache.syncedAt := appointmentCache.syncedAt r |}.

Definition reset_row (r : appointmentCache.row) : appointmentCache.row :=
  if bool_decide (appointmentCache.syncStatus r = Some failed)
  then readmitted r else r.

(** ** Invariants of the store *)

(** What holds of a row in every store the server can hold. *)
Definition row_ok (r : appointmentCache.row) : Prop :=
  (appointmentCache.syncStatus r = Some pending →
   ∃ k, appointmentCache.retryCount r = Some k ∧ 0 ≤ k < 5) ∧
  (appointmentCache.syncStatus r = Some failed →
   appointmentCache.retryCount r = Some 5).

Definition store_ok (w : world) : Prop :=
  NoDup (appointmentCache.id <$> cache w) ∧
  (∀ r, r ∈ cache w → appointmentCache.id r < cache_seq w) ∧
  (∀ r, r ∈ cache w → row_ok r).

(** The entries a running cycle still holds are rows of the store as they
    are now, pending, and no two of them are the same task. *)
Definition invariant (s : Server.state) : Prop :=
  store_ok (Server.db s) ∧
  NoDup (appointmentCache.id <$> Server.in_flight s) ∧
  (∀ e, e ∈ Server.in_flight s →
        e ∈ cache (Server.db s) ∧
        appointmentCache.syncStatus e = Some pending).

(** ** Bookings *)

(** A field of the body is missing (or falsy). *)
Definition missing_field (clientId providerId : Z)
    (dateTime type format : string) : Prop :=
  clientId = 0 ∨ providerId = 0 ∨ dateTime = ""%string ∨ type = ""%string ∨
  format = ""%string.

(** The appointment a booking inserts and the payload it enqueues. *)
Definition booked_values (clientId providerId : Z)
    (dateTime type format : string) : appointments_values :=
  {| v_clientId := clientId; v_providerId := providerId;
     v_dateTime := dateTime;
     v_duration := default 60 (Routes.durations !! type);
     v_type := type; v_format := format; v_status := "scheduled" |}.

Definition booked_row (clientId providerId : Z)
    (dateTime type format : string) : appointments.row :=
  {| appointments.intakeqId := None; appointments.clientId := clientId;
     appointments.providerId := providerId;
     appointments.dateTime := dateTime;
     appointments.duration := default 60 (Routes.durations !! type);
     appointments.type := type; appointments.format := format;
     appointments.status := Some "scheduled"%string |}.

Definition booked_payload (clientId providerId : Z)
    (dateTime type : string) : value :=
  Obj (list_to_map
    [("ClientId", Num clientId); ("ProviderId", Num providerId);
     ("DateTime", Str dateTime);
     ("Duration", Num (default 60 (Routes.durations !! type)));
     ("ServiceName", Str (Routes.replace_underscore type))]%string).

(** The world after the insert of the appointment of a booking. *)
Definition after_appointment_insert (r : appointments.row) (w : world)
  : world :=
  with_appts_seq (appts_seq w + 1)
    (with_appts (<[appts_seq w := r]> (appts w)) (count_statement w)).

(** A state of the system with overlapping cycles in which at most the last
    cycle still holds entries is a state of the system with one cycle at a
    time. *)
Definition one_at_a_time (s : Server.state) (o : Overlapping.state) : Prop :=
  Overlapping.db o = Server.db s ∧
  ∃ finished,
    Forall (λ c, c = []) finished ∧
    (Overlapping.cycles o = finished ++ [Server.in_flight s] ∨
     (Server.in_flight s = [] ∧ Overlapping.cycles o = finished)).

(** ** Scenarios *)

Module Scenario.

(** A reply of the declared interface. *)
Definition confirmed : IntakeQAppointment :=
  {| Id := "iq-481"; ClientId := "7"; ProviderId := "3";
     DateTime := "2026-01-05T10:30"; Duration := 15;
     ServiceName := "follow up"; Status := "Confirmed" |}.

(** The same reply with a member [id] next to those of the interface. *)
Definition confirmed_with_id : value :=
  match as_object confirmed with
  | Obj members => Obj (<["id"%string := Str "iq-481"]> members)
  | v => v
  end.

Definition clock (w : world) : Z :=
  1767609000000 + 30000 * Z.of_nat (db_statements w).

(** The payload the booking route enqueues for a follow-up of [client]. *)
Definition payload (client : Z) : value :=
  booked_payload client 3 "2026-01-05T10:30" "follow_up".

Definition quote : string := String (ascii_of_nat 34) EmptyString.

Definition text_of_prim (p : prim) : string :=
  match p with
  | Null => "null"
  | Str s => quote +:+ s +:+ quote
  | Num n => pretty n
  end.

Definition text_of_member (k : string) (p : prim) : string :=
  quote +:+ k +:+ quote +:+ ":" +:+ text_of_prim p.

(** The keys of a payload in the order the booking route writes them. *)
Definition payload_keys : list string :=
  ["ClientId"; "ProviderId"; "DateTime"; "Duration"; "ServiceName"]%string.

(** [JSON.stringify] on flat objects whose strings have no character to
    escape: the members of a payload come in the order of the route, any
    other member after them. *)
Definition stringify (v : value) : option string :=
  match v with
  | Undefined => None
  | Prim p => Some (text_of_prim p)
  | Obj members =>
      let of_payload :=
        omap (λ k, text_of_member k <$> members !! k) payload_keys in
      let others :=
        (λ kv, text_of_member kv.1 kv.2) <$>
        filter (λ kv, kv.1 ∉ payload_keys) (map_to_list members) in
      Some ("{" +:+ String.concat "," (of_payload ++ others) +:+ "}")
  end.

(** The JSON text of the payload of [client]. *)
Definition text (client : Z) : string :=
  default EmptyString (stringify (payload client)).

(** [JSON.parse] on the texts the scenarios store, those of the payloads of
    clients 1 to 12; any other text is read as malformed. *)
Definition parse (s : string) : outcome value :=
  match List.find (λ v, bool_decide (stringify v = Some s))
          (payload <$> seqZ 1 12) with
  | Some v => Returned v
  | None => Threw {| message := Some "Unexpected token in JSON" |}
  end.

Definition environment_of (post : world → value → outcome value)
    (fault : world → statement → option Error) : environment :=
  {| Date_now := clock; JSON_stringify := stringify; JSON_parse := parse;
     db_fault := fault; api_post_appointments := post |}.

Definition no_fault (w : world) (s : statement) : option Error := None.

Definition timeout : Error :=
  {| message := Some "timeout of 30000ms exceeded" |}.

(** IntakeQ answers every request with a reply of the declared interface;
    the database answers every statement. *)
Definition env_up : environment :=
  environment_of (λ _ _, Returned (as_object confirmed)) no_fault.

(** IntakeQ answers every request with a reply that has an [id]. *)
Definition env_up_with_id : environment :=
  environment_of (λ _ _, Returned confirmed_with_id) no_fault.

(** IntakeQ times out on every request. *)
Definition env_down : environment :=
  environment_of (λ _ _, Threw timeout) no_fault.

(** IntakeQ answers with a reply that has an [id], but every update of
    [appointments] is rejected. *)
Definition env_back_reference_fault : environment :=
  environment_of (λ _ _, Returned confirmed_with_id)
    (λ _ s, match s with
            | UpdateAppointments _ _ =>
                Some {| message := Some "deadlock detected" |}
            | _ => None
            end).

(** IntakeQ times out on the first [n] requests and answers the later ones
    with [reply]. *)
Definition env_recovers (n : nat) (reply : value) : environment :=
  environment_of
    (λ w _, if bool_decide (intakeq_posts w < n)%nat then Threw timeout
            else Returned reply)
    no_fault.

(** IntakeQ answers the request that comes after [n] others with [reply] and
    times out on every other one. *)
Definition env_answers_once (n : nat) (reply : value) : environment :=
  environment_of
    (λ w _, if bool_decide (intakeq_posts w = n) then Returned reply
            else Threw timeout)
    no_fault.

(** IntakeQ rejects the payload of client 1 and answers every other request
    with a reply that has an [id]; the database rejects every update of
    task 1. *)
Definition env_failure_record_fault : environment :=
  environment_of
    (λ _ data,
       if bool_decide (data = payload 1)
       then Threw {| message := Some "Request failed with status code 400" |}
       else Returned confirmed_with_id)
    (λ _ s, match s with
            | UpdateAppointmentCache _ (where_id 1) =>
                Some {| message := Some "connection terminated" |}
            | _ => None
            end).

Definition appointment (client : Z) : appointments.row :=
  {| appointments.intakeqId := None; appointments.clientId := client;
     appointments.providerId := 3;
     appointments.dateTime := "2026-01-05T10:30";
     appointments.duration := 15; appointments.type := "follow_up";
     appointments.format := "telehealth";
     appointments.status := Some "scheduled"%string |}.

(** The task of the booking of client [i], after [attempts] failures. *)
Definition task (i : Z) (status : syncStatusEnum) (attempts : Z)
  : appointmentCache.row :=
  {| appointmentCache.id := i; appointmentCache.appointmentId := i;
     appointmentCache.syncStatus := Some status;
     appointmentCache.retryCount := Some attempts;
     appointmentCache.lastSyncAttempt :=
       if bool_decide (attempts = 0) then None else Some 1767609030000;
     appointmentCache.errorMessage :=
       if bool_decide (attempts = 0) then None
       else Some "Failed to create appointment in IntakeQ"%string;
     appointmentCache.payload := text i;
     appointmentCache.createdAt := Some 1767609000000;
     appointmentCache.syncedAt := None |}.

Definition store (rows : list appointmentCache.row) : world :=
  {| cache := rows; cache_seq := 1 + Z.of_nat (length rows);
     appts := list_to_map
                ((λ r, (appointmentCache.appointmentId r,
                        appointment (appointmentCache.appointmentId r)))
                 <$> rows);
     appts_seq := 1 + Z.of_nat (length rows);
     intakeq_posts := 0; db_statements := 0 |}.

(** A booking, then five cycles of the worker: each cycle is one step that
    selects the batch and one step for its only entry. *)
Definition booking_then_five_cycles : list Server.action :=
  Server.Book 7 3 "2026-01-05T10:30" "follow_up" "telehealth"
  :: replicate 10 Server.Worker.

(** A booking and three failed cycles; then three cycles overlap: the first
    reads the task with three attempts and waits, the second reads the same
    and fails, the third reads it with four attempts and fails, and only then
    does the first go on. *)
Definition booking_then_overlapping_cycles : list Overlapping.action :=
  [Overlapping.Book 7 3 "2026-01-05T10:30" "follow_up" "telehealth";
   Overlapping.Begin; Overlapping.Step 0;
   Overlapping.Begin; Overlapping.Step 1;
   Overlapping.Begin; Overlapping.Step 2;
   Overlapping.Begin; Overlapping.Begin; Overlapping.Step 4;
   Overlapping.Begin; Overlapping.Step 5;
   Overlapping.Step 3].

(** A booking and four failed cycles; then two cycles read the task with
    four attempts, and the second of them takes its step first. *)
Definition booking_then_two_cycles_at_once : list Overlapping.action :=
  [Overlapping.Book 7 3 "2026-01-05T10:30" "follow_up" "telehealth";
   Overlapping.Begin; Overlapping.Step 0;
   Overlapping.Begin; Overlapping.Step 1;
   Overlapping.Begin; Overlapping.Step 2;
   Overlapping.Begin; Overlapping.Step 3;
   Overlapping.Begin; Overlapping.Begin;
   Overlapping.Step 5; Overlapping.Step 4].

End Scenario.

(** ** Counting and comparing tasks *)

(** The number of rows in a given state. *)
Definition count_status (st : syncStatusEnum)
    (rows : list appointmentCache.row) : nat :=
  length (filter (λ r, appointmentCache.syncStatus r = Some st) rows).

(** Two versions of one task: the columns that identify it and say what to
    send are the same. *)
Definition same_task (r r' : appointmentCache.row) : Prop :=
  appointmentCache.id r' = appointmentCache.id r ∧
  appointmentCache.appointmentId r' = appointmentCache.appointmentId r ∧
  appointmentCache.payload r' = appointmentCache.payload r ∧
  appointmentCache.createdAt r' = appointmentCache.createdAt r.

(** What the service maintains on every row beyond the bounds of [row_ok]:
    the state is never null, [syncedAt] is set exactly on synced rows, and
    ids start at 1. *)
Definition row_settled (r : appointmentCache.row) : Prop :=
  appointmentCache.syncStatus r ≠ None ∧
  (appointmentCache.syncStatus r = Some synced ↔
   appointmentCache.syncedAt r ≠ None) ∧
  1 ≤ appointmentCache.id r.

(** What one action of the server can do to the task table: nothing (but
    spend a value of the sequence on a rejected row), append one new pending
    row (a booking or an enqueue), re-admit the failed rows (the reset), or
    apply the write of the worker to the row of the entry at the head of the
    running cycle. *)
Inductive cache_change (a : Server.action) (flight : list appointmentCache.row)
    (w w' : world) : Prop :=
| change_none :
    cache w' = cache w → cache_seq w ≤ cache_seq w' →
    cache_change a flight w w'
| change_insert r :
    a ≠ Server.RetryFailed → a ≠ Server.Worker →
    cache w' = cache w ++ [r] → cache_seq w' = cache_seq w + 1 →
    appointmentCache.id r = cache_seq w →
    appointmentCache.syncStatus r = Some pending →
    appointmentCache.retryCount r = Some 0 →
    appointmentCache.syncedAt r = None →
    cache_change a flight w w'
| change_reset :
    a = Server.RetryFailed →
    cache w' = reset_row <$> cache w → cache_seq w' = cache_seq w →
    cache_change a flight w w'
| change_sync entry rest st :
    a = Server.Worker → flight = entry :: rest →
    cache w' = update_where st (where_id (appointmentCache.id entry)) (cache w) →
    cache_seq w' = cache_seq w →
    ((∃ now, st = set_synced now) ∨
     (∃ error now, st = failure_set entry error now)) →
    cache_change a flight w w'.

(** The rows of a store are settled and its sequence has not gone below
    1. *)
Definition store_settled (w : world) : Prop :=
  1 ≤ cache_seq w ∧ ∀ r, r ∈ cache w → row_settled r.

(** Two worlds with the same tables, sequences and count of downstream
    requests: they differ at most in the count of statements. *)
Definition same_tables (w w' : world) : Prop :=
  cache w' = cache w ∧ cache_seq w' = cache_seq w ∧
  appts w' = appts w ∧ appts_seq w' = appts_seq w ∧
  intakeq_posts w' = intakeq_posts w.

(** [n] attempts in a row on the task with key [i], each on the row as the
    attempt before left it (a cycle reads its entries when it begins). *)
Fixpoint attempts (env : environment) (n : nat) (i : Z) (w : world) : world :=
  match n with
  | O => w
  | S n' =>
      match lookup_id i (cache w) with
      | Some entry => attempts env n' i (syncSingleAppointment env entry w).2
      | None => w
      end
  end.

(** An appointment as an update of its back-reference leaves it. *)
Definition same_appointment (a a' : appointments.row) : Prop :=
  ∃ v, a' = appointments.with_intakeqId v a.

(** The appointments of [m] are all in [m'], changed at most in their
    back-reference, and [m'] has no other. *)
Definition appointments_kept (m m' : gmap Z appointments.row) : Prop :=
  ∀ k, match m !! k with
       | Some a => ∃ a', m' !! k = Some a' ∧ same_appointment a a'
       | None => m' !! k = None
       end.

(** * Properties of the synchronisation queue *)

(** ** Rows and updates *)

Arguments lookup_id : simpl never.
Arguments update_where : simpl never.
Arguments select_where : simpl never.

Section Rows.
Implicit Types (r : appointmentCache.row) (rows : list appointmentCache.row).
Implicit Types (s : cache_set) (i j : Z).

Lemma apply_set_id s r :
  appointmentCache.id (apply_set s r) = appointmentCache.id r.
Proof. reflexivity. Qed.

Lemma lookup_id_fmap (f : appointmentCache.row → appointmentCache.row) i rows :
  (∀ r, appointmentCache.id (f r) = appointmentCache.id r) →
  lookup_id i (f <$> rows) = f <$> lookup_id i rows.
Proof.
  intros Hid. unfold lookup_id.
  induction rows as [|r rows IH]; [done|].
  cbn. rewrite Hid. destruct (bool_decide _); [done|]. apply IH.
Qed.

Lemma lookup_id_Some i rows r :
  lookup_id i rows = Some r → r ∈ rows ∧ appointmentCache.id r = i.
Proof.
  unfold lookup_id. intros H. apply find_some in H as [Hin Hb].
  split; [by apply list_elem_of_In|]. by apply bool_decide_eq_true in Hb.
Qed.

Lemma lookup_id_None i rows :
  lookup_id i rows = None → ∀ r, r ∈ rows → appointmentCache.id r ≠ i.
Proof.
  unfold lookup_id. intros H r Hin Heq.
  apply list_elem_of_In in Hin.
  pose proof (find_none _ _ H r Hin) as Hb. cbn in Hb.
  by apply bool_decide_eq_false in Hb.
Qed.

(** With a primary key, looking a stored row up by its [id] finds it. *)
Lemma lookup_id_elem_of rows r :
  NoDup (appointmentCache.id <$> rows) → r ∈ rows →
  lookup_id (appointmentCache.id r) rows = Some r.
Proof.
  unfold lookup_id. induction rows as [|x rows IH]; intros Hnd Hin.
  - by apply elem_of_nil in Hin.
  - rewrite fmap_cons in Hnd. apply NoDup_cons in Hnd as [Hx Hnd].
    cbn. apply elem_of_cons in Hin as [->|Hin].
    + by rewrite bool_decide_eq_true_2.
    + rewrite bool_decide_eq_false_2; [by apply IH|].
      intros Heq. apply Hx. rewrite Heq. by apply list_elem_of_fmap_2.
Qed.

Lemma update_where_ids s c rows :
  appointmentCache.id <$> update_where s c rows = appointmentCache.id <$> rows.
Proof.
  unfold update_where. rewrite <- list_fmap_compose.
  apply list_fmap_ext. intros _ r _. cbn. by destruct (matches c r).
Qed.

Lemma lookup_id_update_where s c i rows :
  lookup_id i (update_where s c rows) =
  (λ r, if matches c r then apply_set s r else r) <$> lookup_id i rows.
Proof.
  apply lookup_id_fmap. intros r. by destruct (matches c r).
Qed.

(** An update keyed by [id] rewrites the row with that key and no other. *)
Lemma lookup_id_update_same s i rows :
  lookup_id i (update_where s (where_id i) rows) =
  apply_set s <$> lookup_id i rows.
Proof.
  rewrite lookup_id_update_where.
  destruct (lookup_id i rows) as [r|] eqn:Hr; [|done].
  apply lookup_id_Some in Hr as [_ Hr]. cbn.
  by rewrite bool_decide_eq_true_2.
Qed.

Lemma lookup_id_update_other s i j rows :
  i ≠ j → lookup_id i (update_where s (where_id j) rows) = lookup_id i rows.
Proof.
  intros Hne. rewrite lookup_id_update_where.
  destruct (lookup_id i rows) as [r|] eqn:Hr; [|done].
  apply lookup_id_Some in Hr as [_ Hr]. cbn.
  rewrite bool_decide_eq_false_2; [done|congruence].
Qed.

End Rows.

(** ** Running the service *)

Section Runs.
Variable env : environment.
Implicit Types (w : world) (entry : appointmentCache.row).

Lemma db_update_appointmentCache_ok s c w :
  db_fault env w (UpdateAppointmentCache s c) = None →
  db_update_appointmentCache env s c w =
  (Returned tt, with_cache (update_where s c (cache w)) (count_statement w)).
Proof.
  intros Hf. unfold db_update_appointmentCache, db_execute. by rewrite Hf.
Qed.

Lemma db_update_appointmentCache_fault s c w e :
  db_fault env w (UpdateAppointmentCache s c) = Some e →
  db_update_appointmentCache env s c w = (Threw e, count_statement w).
Proof.
  intros Hf. unfold db_update_appointmentCache, db_execute. by rewrite Hf.
Qed.

Lemma db_update_appointments_cache v i w :
  cache (db_update_appointments env v i w).2 = cache w ∧
  cache_seq (db_update_appointments env v i w).2 = cache_seq w.
Proof.
  unfold db_update_appointments, db_execute, throw.
  destruct v as [p|]; [|done]. by destruct (db_fault env w _).
Qed.

Lemma db_update_appointments_ok p i w :
  db_fault env w (UpdateAppointments p i) = None →
  db_update_appointments env (Some p) i w =
  (Returned tt,
   with_appts (alter (appointments.with_intakeqId (varchar_of p)) i (appts w))
     (count_statement w)).
Proof.
  intros Hf. unfold db_update_appointments, db_execute. by rewrite Hf.
Qed.

(** The update of the back-reference returns only when there is a value to
    set and the database takes the statement. *)
Lemma db_update_appointments_returned v i w w' :
  db_update_appointments env v i w = (Returned tt, w') →
  ∃ p, v = Some p ∧ db_fault env w (UpdateAppointments p i) = None.
Proof.
  unfold db_update_appointments, db_execute, throw.
  destruct v as [p|]; [|done].
  destruct (db_fault env w _) eqn:Hf; [done|]. eauto.
Qed.

Lemma record_failure_unfold entry error w :
  record_failure env entry error w =
  db_update_appointmentCache env
    (failure_set entry error (Date_now env w))
    (where_id (appointmentCache.id entry)) w.
Proof.
  unfold record_failure, failure_set, bind, new_Date.
  by destruct (bool_decide _).
Qed.

(** What the [try] block leaves behind: the task row marked as synced when it
    returns, the [appointment_cache] table as it was when it throws. *)
Lemma attempt_sync_returned entry w w' :
  attempt_sync env entry w = (Returned tt, w') →
  sync_succeeds env entry w ∧
  ∃ now, cache w' =
         update_where (set_synced now) (where_id (appointmentCache.id entry))
           (cache w) ∧
         cache_seq w' = cache_seq w.
Proof.
  unfold attempt_sync, sync_succeeds, bind, eval, createAppointment,
    try_catch, throw, new_Date.
  destruct (JSON_parse env _) as [data|] eqn:Hparse; [|done].
  destruct (api_post_appointments env w data) as [response|] eqn:Hpost;
    [|done].
  destruct (get_property response "id") as [v|] eqn:Hget; [|done].
  destruct (db_update_appointments env v _ (count_post w)) as [[[]|] w2]
    eqn:Hback; [|done].
  intros Hrun.
  destruct (db_update_appointments_returned _ _ _ _ Hback) as (p & -> & Hf1).
  pose proof (db_update_appointments_cache (Some p)
                (appointmentCache.appointmentId entry) (count_post w)) as Hc.
  rewrite Hback in Hc. cbn in Hc. destruct Hc as [Hc1 Hc2].
  destruct (db_fault env w2
              (UpdateAppointmentCache (set_synced (Date_now env w2))
                 (where_id (appointmentCache.id entry)))) as [e|] eqn:Hf2.
  { by rewrite (db_update_appointmentCache_fault _ _ _ e) in Hrun. }
  rewrite db_update_appointmentCache_ok in Hrun by done.
  injection Hrun as <-. split.
  - exists data, response, p. rewrite Hback. cbn. done.
  - exists (Date_now env w2). cbn. by rewrite Hc1.
Qed.

(** The same, with the world in which the update of the task row is
    issued. *)
Lemma attempt_sync_returned_at entry w w' :
  attempt_sync env entry w = (Returned tt, w') →
  ∃ w2,
    db_fault env w2
      (UpdateAppointmentCache (set_synced (Date_now env w2))
         (where_id (appointmentCache.id entry))) = None ∧
    cache w' =
      update_where (set_synced (Date_now env w2))
        (where_id (appointmentCache.id entry)) (cache w).
Proof.
  unfold attempt_sync, bind, eval, createAppointment, try_catch, throw,
    new_Date.
  destruct (JSON_parse env _) as [data|] eqn:Hparse; [|done].
  destruct (api_post_appointments env w data) as [response|] eqn:Hpost;
    [|done].
  destruct (get_property response "id") as [v|] eqn:Hget; [|done].
  pose proof (db_update_appointments_cache v
                (appointmentCache.appointmentId entry) (count_post w)) as Hc.
  destruct (db_update_appointments env v _ (count_post w)) as [[[]|] w2];
    [|done].
  cbn in Hc. destruct Hc as [Hc1 _]. intros Hrun. exists w2.
  destruct (db_fault env w2
              (UpdateAppointmentCache (set_synced (Date_now env w2))
                 (where_id (appointmentCache.id entry)))) as [e|] eqn:Hf2.
  { by rewrite (db_update_appointmentCache_fault _ _ _ e) in Hrun. }
  rewrite db_update_appointmentCache_ok in Hrun by done.
  injection Hrun as <-. split; [done|]. cbn. by rewrite Hc1.
Qed.

Lemma attempt_sync_succeeds entry w :
  sync_succeeds env entry w →
  ∃ w', attempt_sync env entry w = (Returned tt, w').
Proof.
  intros (data & response & p & Hparse & Hpost & Hget & Hf1 & Hf2).
  unfold attempt_sync, bind, eval, createAppointment, try_catch, new_Date.
  rewrite Hparse, Hpost, Hget.
  rewrite db_update_appointments_ok in Hf2 |- * by done. cbn in Hf2.
  rewrite db_update_appointmentCache_ok by done. eauto.
Qed.

Lemma attempt_sync_threw entry w w' e :
  attempt_sync env entry w = (Threw e, w') →
  cache w' = cache w ∧ cache_seq w' = cache_seq w.
Proof.
  unfold attempt_sync, bind, eval, createAppointment, try_catch, throw,
    new_Date.
  destruct (JSON_parse env _) as [data|]; [|by intros [= _ <-]].
  destruct (api_post_appointments env w data) as [response|];
    [|by intros [= _ <-]].
  destruct (get_property response "id") as [v|]; [|by intros [= _ <-]].
  pose proof (db_update_appointments_cache v
                (appointmentCache.appointmentId entry) (count_post w)) as Hc.
  destruct (db_update_appointments env v _ (count_post w)) as [[[]|] w2];
    cbn in Hc; destruct Hc as [Hc1 Hc2]; [|by intros [= _ <-]].
  unfold db_update_appointmentCache, db_execute.
  destruct (db_fault env w2 _); [|done].
  by intros [= _ <-].
Qed.

End Runs.

Section Effects.
Variable env : environment.
Implicit Types (w : world) (entry : appointmentCache.row).

(** [syncSingleAppointment] issues at most one update of the task table, and
    that update is keyed by the [id] of the entry. *)
Lemma syncSingleAppointment_effect entry w :
  let w' := (syncSingleAppointment env entry w).2 in
  cache_seq w' = cache_seq w ∧
  (cache w' = cache w ∨
   ∃ s, cache w' =
        update_where s (where_id (appointmentCache.id entry)) (cache w) ∧
        ((∃ now, s = set_synced now) ∨
         (∃ error now, s = failure_set entry error now))).
Proof.
  unfold syncSingleAppointment, try_catch.
  destruct (attempt_sync env entry w) as [[[]|e] w1] eqn:Htry; cbn.
  - apply attempt_sync_returned in Htry as (_ & now & Hc & Hs).
    split; [done|]. right. eauto 6.
  - apply attempt_sync_threw in Htry as [Hc Hs].
    rewrite record_failure_unfold.
    destruct (db_fault env w1
                (UpdateAppointmentCache (failure_set entry e (Date_now env w1))
                   (where_id (appointmentCache.id entry)))) as [e'|] eqn:Hf.
    + rewrite (db_update_appointmentCache_fault _ _ _ _ e') by done.
      cbn. split; [done|]. by left.
    + rewrite db_update_appointmentCache_ok by done. cbn.
      split; [done|]. right. rewrite Hc. eauto 6.
Qed.

(** When the downstream call throws, the [catch] block runs on the world
    that has one more request and the fixed error of the client. *)
Lemma attempt_sync_downstream_threw entry w data error :
  JSON_parse env (appointmentCache.payload entry) = Returned data →
  api_post_appointments env w data = Threw error →
  attempt_sync env entry w =
  (Threw {| message := Some "Failed to create appointment in IntakeQ" |},
   count_post w).
Proof.
  intros Hparse Hpost.
  unfold attempt_sync, bind, eval, createAppointment, try_catch, throw.
  by rewrite Hparse, Hpost.
Qed.

(** With the database available, a downstream throw makes the step write
    the failure object on the task and return. *)
Lemma syncSingleAppointment_downstream_threw entry w data error :
  db_available env →
  JSON_parse env (appointmentCache.payload entry) = Returned data →
  api_post_appointments env w data = Threw error →
  syncSingleAppointment env entry w =
  (Returned tt,
   with_cache
     (update_where
        (failure_set entry
           {| message := Some "Failed to create appointment in IntakeQ" |}
           (Date_now env (count_post w)))
        (where_id (appointmentCache.id entry)) (cache w))
     (count_statement (count_post w))).
Proof.
  intros Hdb Hparse Hpost. unfold syncSingleAppointment, try_catch.
  rewrite (attempt_sync_downstream_threw entry w data error) by done.
  by rewrite record_failure_unfold, db_update_appointmentCache_ok by apply Hdb.
Qed.

(** A cycle whose selection is answered runs the step on each entry of the
    batch and returns, whatever the steps did. *)
Lemma syncPendingAppointments_run w :
  db_fault env w (SelectAppointmentCache (where_syncStatus pending)
                    (Some 10%nat)) = None →
  syncPendingAppointments env w =
  (Returned tt,
   (for_of (select_where (where_syncStatus pending) (Some 10%nat) (cache w))
      (syncSingleAppointment env) (count_statement w)).2).
Proof.
  intros Hfault.
  unfold syncPendingAppointments, try_catch, bind,
    db_select_appointmentCache, db_execute, ret.
  rewrite Hfault. cbn.
  destruct (select_where _ _ (cache w)) as [|entry rest]; [done|].
  cbn [length bool_decide]. rewrite bool_decide_eq_false_2 by done.
  by destruct (for_of _ _ _) as [[[]|e] w1].
Qed.


End Effects.

(** ** C1: a failed downstream call is recorded on the task *)



(** ** C2: when a task becomes synced *)

Lemma failure_set_not_synced entry error now r :
  appointmentCache.syncStatus r ≠ Some synced →
  appointmentCache.syncStatus (apply_set (failure_set entry error now) r)
  ≠ Some synced.
Proof.
  intros Hr. unfold failure_set. by destruct (bool_decide _).
Qed.

(** C2, as the code has it.  A pending task of the store is synced after
    [syncSingleAppointment] if and only if the downstream client reported
    success for it and both updates of the [try] block went through, the one
    of the back-reference included; the task then has [syncedAt] set.  (A
    back-reference update that finds no appointment does not throw and so
    does not stand in the way; one that has no value to set, because the
    reply has no [id], throws.) *)
Theorem synced_iff_downstream_and_updates_succeed env w entry :
  lookup_id (appointmentCache.id entry) (cache w) = Some entry →
  appointmentCache.syncStatus entry = Some pending →
  let w' := (syncSingleAppointment env entry w).2 in
  ((∃ r, lookup_id (appointmentCache.id entry) (cache w') = Some r ∧
         appointmentCache.syncStatus r = Some synced)
   ↔ sync_succeeds env entry w) ∧
  (sync_succeeds env entry w →
   ∃ r now, lookup_id (appointmentCache.id entry) (cache w') = Some r ∧
            appointmentCache.syncStatus r = Some synced ∧
            appointmentCache.syncedAt r = Some now).
Proof.
  intros Hstored Hpending. cbn zeta.
  assert (sync_succeeds env entry w →
          ∃ r now,
            lookup_id (appointmentCache.id entry)
              (cache (syncSingleAppointment env entry w).2) = Some r ∧
            appointmentCache.syncStatus r = Some synced ∧
            appointmentCache.syncedAt r = Some now) as Hyes.
  { intros Hok. destruct (attempt_sync_succeeds env entry w Hok) as [w1 Hrun].
    unfold syncSingleAppointment, try_catch. rewrite Hrun. cbn.
    apply attempt_sync_returned in Hrun as (_ & now & Hc & _).
    rewrite Hc, lookup_id_update_same, Hstored. cbn. eauto. }
  split; [|exact Hyes]. split.
  - intros (r & Hr & Hsynced). revert Hr.
    unfold syncSingleAppointment, try_catch.
    destruct (attempt_sync env entry w) as [[[]|e] w1] eqn:Htry.
    + intros _. by apply attempt_sync_returned in Htry as [? _].
    + apply attempt_sync_threw in Htry as [Hc _].
      rewrite record_failure_unfold.
      unfold db_update_appointmentCache, db_execute.
      destruct (db_fault env w1 _); cbn.
      * rewrite Hc, Hstored. intros [= <-]. congruence.
      * rewrite Hc, lookup_id_update_same, Hstored. cbn. intros [= <-].
        exfalso. revert Hsynced. apply failure_set_not_synced. congruence.
  - intros Hok. destruct (Hyes Hok) as (r & _ & Hr & Hs & _). eauto.
Qed.

Lemma synced_iff_downstream_and_updates_succeed_witness :
  let entry := Scenario.task 1 pending 2 in
  let w := Scenario.store [entry] in
  lookup_id 1 (cache w) = Some entry ∧
  appointmentCache.syncStatus entry = Some pending ∧
  sync_succeeds Scenario.env_up_with_id entry w ∧
  ∃ r now, lookup_id 1
             (cache (syncSingleAppointment Scenario.env_up_with_id entry w).2)
           = Some r ∧
           appointmentCache.syncStatus r = Some synced ∧
           appointmentCache.syncedAt r = Some now.
Proof.
  cbn zeta. split; [reflexivity|]. split; [reflexivity|].
  assert (sync_succeeds Scenario.env_up_with_id (Scenario.task 1 pending 2)
            (Scenario.store [Scenario.task 1 pending 2])) as Hok.
  { exists (Scenario.payload 1), Scenario.confirmed_with_id, (Str "iq-481").
    repeat split; vm_compute; reflexivity. }
  split; [exact Hok|].
  exact (proj2 (synced_iff_downstream_and_updates_succeed
                  Scenario.env_up_with_id
                  (Scenario.store [Scenario.task 1 pending 2])
                  (Scenario.task 1 pending 2) eq_refl eq_refl) Hok).
Defined.

(** C2 as it is written fails: with the downstream client reporting success,
    in a reply from which the step can read an identifier, and only the
    update of the back-reference throwing, the task is not synced; the throw
    lands in the [catch] block, which counts an attempt. *)
Lemma back_reference_fault_counts_as_failed_attempt :
  ¬ (∀ env w entry data response p,
       lookup_id (appointmentCache.id entry) (cache w) = Some entry →
       appointmentCache.syncStatus entry = Some pending →
       JSON_parse env (appointmentCache.payload entry) = Returned data →
       api_post_appointments env w data = Returned response →
       get_property response "id" = Returned (Some p) →
       (∀ w0 s, (∀ v i, s ≠ UpdateAppointments v i) →
                db_fault env w0 s = None) →
       ∃ r, lookup_id (appointmentCache.id entry)
              (cache (syncSingleAppointment env entry w).2) = Some r ∧
            appointmentCache.syncStatus r = Some synced ∧
            appointmentCache.retryCount r = appointmentCache.retryCount entry).
Proof.
  intros Hclaim.
  destruct (Hclaim Scenario.env_back_reference_fault
              (Scenario.store [Scenario.task 1 pending 0])
              (Scenario.task 1 pending 0) (Scenario.payload 1)
              Scenario.confirmed_with_id (Str "iq-481"))
    as (r & Hr & Hsynced & _); try (vm_compute; reflexivity).
  - intros w0 s Hs. destruct s; try reflexivity. by destruct (Hs intakeqId id).
  - vm_compute in Hr. injection Hr as <-. discriminate Hsynced.
Qed.

(** ** C3: enqueueing *)

(** C3.  A call of [cacheAppointment] that returns has appended exactly one
    row to [appointment_cache], with a fresh [id], state [pending] and
    [retryCount] 0, and has left every other row, the appointments and the
    count of downstream requests as they were; and its result is the same
    under every environment with the same clock, [JSON.stringify] and
    database faults, whatever the downstream API does. *)
Theorem cacheAppointment_adds_one_pending_task env appointmentId payload w w' :
  cacheAppointment env appointmentId payload w = (Returned tt, w') →
  (∃ r, cache w' = cache w ++ [r] ∧
        appointmentCache.syncStatus r = Some pending ∧
        appointmentCache.retryCount r = Some 0 ∧
        appointmentCache.appointmentId r = appointmentId ∧
        JSON_stringify env payload = Some (appointmentCache.payload r) ∧
        appointmentCache.lastSyncAttempt r = None ∧
        appointmentCache.errorMessage r = None ∧
        appointmentCache.syncedAt r = None ∧
        appointmentCache.id r = cache_seq w ∧
        ((∀ x, x ∈ cache w → appointmentCache.id x < cache_seq w) →
         lookup_id (appointmentCache.id r) (cache w) = None)) ∧
  appts w' = appts w ∧
  intakeq_posts w' = intakeq_posts w ∧
  (∀ env',
     Date_now env' = Date_now env →
     JSON_stringify env' = JSON_stringify env →
     db_fault env' = db_fault env →
     cacheAppointment env' appointmentId payload w =
     cacheAppointment env appointmentId payload w).
Proof.
  unfold cacheAppointment, db_insert_appointmentCache, db_execute.
  intros Hrun. split; [|split; [|split]].
  - destruct (db_fault env w _); [done|].
    destruct (JSON_stringify env payload) as [text|]; [|done].
    cbn in Hrun. destruct (appts w !! appointmentId); [|done].
    injection Hrun as <-. eexists. split; [reflexivity|]. cbn.
    repeat split. intros Hlt.
    destruct (lookup_id (cache_seq w) (cache w)) as [x|] eqn:Hx; [|done].
    apply lookup_id_Some in Hx as [Hin Hid]. specialize (Hlt x Hin). lia.
  - destruct (db_fault env w _); [done|].
    destruct (JSON_stringify env payload); [|done].
    cbn in Hrun. destruct (appts w !! appointmentId); [|done].
    by injection Hrun as <-.
  - destruct (db_fault env w _); [done|].
    destruct (JSON_stringify env payload); [|done].
    cbn in Hrun. destruct (appts w !! appointmentId); [|done].
    by injection Hrun as <-.
  - intros env' -> -> ->. reflexivity.
Qed.

Lemma cacheAppointment_adds_one_pending_task_witness :
  let w := Scenario.store [Scenario.task 1 synced 0] in
  let payload := Obj {[ "ServiceName"%string := Str "follow up" ]} in
  ∃ w', cacheAppointment Scenario.env_down 1 payload w = (Returned tt, w') ∧
        ∃ r, cache w' = cache w ++ [r] ∧
             appointmentCache.syncStatus r = Some pending ∧
             appointmentCache.retryCount r = Some 0 ∧
             appointmentCache.id r = 2.
Proof.
  cbn zeta. eexists. split; [reflexivity|].
  destruct (cacheAppointment_adds_one_pending_task Scenario.env_down 1
              (Obj {[ "ServiceName"%string := Str "follow up" ]})
              (Scenario.store [Scenario.task 1 synced 0]) _ eq_refl)
    as [(r & Hc & Hs & Hn & _ & _ & _ & _ & _ & Hid & _) _].
  exists r. split; [exact Hc|]. split; [exact Hs|]. split; [exact Hn|].
  exact Hid.
Defined.

(** ** C4: the administrative reset *)

Lemma update_where_reset rows :
  update_where set_reset (where_syncStatus failed) rows = reset_row <$> rows.
Proof. reflexivity. Qed.

Lemma reset_row_idempotent r : reset_row (reset_row r) = reset_row r.
Proof.
  unfold reset_row. destruct (bool_decide_reflect
    (appointmentCache.syncStatus r = Some failed)) as [Hf|Hf]; cbn.
  - reflexivity.
  - by rewrite bool_decide_eq_false_2.
Qed.

(** C4.  With the database available, [retryFailedSyncs] returns normally,
    turns every failed task into a pending one with [retryCount] 0 and
    [errorMessage] null and changes nothing else in the store; a second run
    right after the first leaves the store as the first left it, and a run on
    a store without failed tasks leaves the store as it was. *)
Theorem retryFailedSyncs_readmits_and_is_idempotent env w :
  db_available env →
  let once := retryFailedSyncs env w in
  let twice := retryFailedSyncs env once.2 in
  once.1 = Returned tt ∧ twice.1 = Returned tt ∧
  cache once.2 = reset_row <$> cache w ∧
  (∀ r, r ∈ cache once.2 → appointmentCache.syncStatus r ≠ Some failed) ∧
  cache_seq once.2 = cache_seq w ∧ appts once.2 = appts w ∧
  appts_seq once.2 = appts_seq w ∧ intakeq_posts once.2 = intakeq_posts w ∧
  cache twice.2 = cache once.2 ∧ cache_seq twice.2 = cache_seq once.2 ∧
  appts twice.2 = appts once.2 ∧ appts_seq twice.2 = appts_seq once.2 ∧
  ((∀ r, r ∈ cache w → appointmentCache.syncStatus r ≠ Some failed) →
   cache once.2 = cache w).
Proof.
  intros Hdb. cbn zeta. unfold retryFailedSyncs.
  rewrite !db_update_appointmentCache_ok by apply Hdb. cbn.
  rewrite !update_where_reset.
  repeat split.
  - intros r Hr. apply list_elem_of_fmap in Hr as (x & -> & _).
    unfold reset_row. destruct (bool_decide_reflect
      (appointmentCache.syncStatus x = Some failed)); [done|congruence].
  - rewrite <- list_fmap_compose. apply list_fmap_ext.
    intros _ r _. apply reset_row_idempotent.
  - intros Hnone. rewrite <- (list_fmap_id (cache w)) at 2.
    apply list_fmap_ext. intros i r Hr. unfold reset_row.
    rewrite bool_decide_eq_false_2; [done|].
    apply Hnone. by eapply list_elem_of_lookup_2.
Qed.

Lemma retryFailedSyncs_readmits_and_is_idempotent_witness :
  let w := Scenario.store [Scenario.task 1 failed 5;
                           Scenario.task 2 synced 1] in
  db_available Scenario.env_down ∧
  cache (retryFailedSyncs Scenario.env_down w).2 =
    [readmitted (Scenario.task 1 failed 5);
     Scenario.task 2 synced 1] ∧
  cache (retryFailedSyncs Scenario.env_down
           (retryFailedSyncs Scenario.env_down w).2).2 =
    cache (retryFailedSyncs Scenario.env_down w).2.
Proof.
  cbn zeta.
  assert (db_available Scenario.env_down) as Hdb by (by intros ? ?).
  split; [exact Hdb|].
  destruct (retryFailedSyncs_readmits_and_is_idempotent Scenario.env_down
              (Scenario.store [Scenario.task 1 failed 5;
                               Scenario.task 2 synced 1]) Hdb)
    as (_ & _ & Honce & _ & _ & _ & _ & _ & Htwice & _).
  split; [exact Honce|exact Htwice].
Defined.

(** ** C5: failed tasks have used up their attempts *)

Section Handlers.
Variable env : environment.
Implicit Types (w : world).

(** The only thing [cacheAppointment] does to the task table is to append
    one fresh pending row; a rejected row costs at most a value of the
    sequence. *)
Lemma cacheAppointment_effect appointmentId payload w :
  let w' := (cacheAppointment env appointmentId payload w).2 in
  (cache w' = cache w ∧ cache_seq w ≤ cache_seq w') ∨
  (∃ r, cache w' = cache w ++ [r] ∧ cache_seq w' = cache_seq w + 1 ∧
        appointmentCache.id r = cache_seq w ∧
        appointmentCache.syncStatus r = Some pending ∧
        appointmentCache.retryCount r = Some 0).
Proof.
  unfold cacheAppointment, db_insert_appointmentCache, db_execute.
  destruct (db_fault env w _); [left; cbn; split; [done|lia]|].
  destruct (JSON_stringify env payload); [|left; cbn; split; [done|lia]].
  cbn. destruct (appts w !! appointmentId); cbn; [|left; split; [done|lia]].
  right. eexists. by repeat split.
Qed.

Lemma cacheAppointment_adds_one_row appointmentId payload w w' :
  cacheAppointment env appointmentId payload w = (Returned tt, w') →
  (∃ r, cache w' = cache w ++ [r] ∧
        appointmentCache.syncStatus r = Some pending ∧
        appointmentCache.retryCount r = Some 0 ∧
        appointmentCache.appointmentId r = appointmentId) ∧
  appts w' = appts w ∧
  intakeq_posts w' = intakeq_posts w.
Proof.
  unfold cacheAppointment, db_insert_appointmentCache, db_execute.
  destruct (db_fault env w _); [done|].
  destruct (JSON_stringify env payload); [|done].
  cbn. destruct (appts w !! appointmentId); [|done].
  intros [= <-]. split; [|done]. eexists. by repeat split.
Qed.

Lemma db_insert_appointments_cache v w :
  cache (db_insert_appointments env v w).2 = cache w ∧
  cache_seq (db_insert_appointments env v w).2 = cache_seq w.
Proof.
  unfold db_insert_appointments, db_execute.
  destruct (db_fault env w _); [done|]. by destruct (_ && _).
Qed.

Lemma book_appointment_effect clientId providerId dateTime type format w :
  let w' := (Routes.book_appointment env clientId providerId dateTime type
               format w).2 in
  (cache w' = cache w ∧ cache_seq w ≤ cache_seq w') ∨
  (∃ r, cache w' = cache w ++ [r] ∧ cache_seq w' = cache_seq w + 1 ∧
        appointmentCache.id r = cache_seq w ∧
        appointmentCache.syncStatus r = Some pending ∧
        appointmentCache.retryCount r = Some 0).
Proof.
  unfold Routes.book_appointment, try_catch, bind, ret.
  destruct (_ || _); [left; cbn; split; [done|lia]|].
  pose proof (db_insert_appointments_cache
    {| v_clientId := clientId; v_providerId := providerId;
       v_dateTime := dateTime;
       v_duration := default 60 (Routes.durations !! type);
       v_type := type; v_format := format; v_status := "scheduled" |} w)
    as [Hc Hs].
  destruct (db_insert_appointments env _ w) as [[i|e] w1]; cbn in Hc, Hs.
  2:{ cbn. left. split; [done|lia]. }
  - pose proof (cacheAppointment_effect i
      (Obj (list_to_map
         [("ClientId", Num clientId); ("ProviderId", Num providerId);
          ("DateTime", Str dateTime);
          ("Duration", Num (default 60 (Routes.durations !! type)));
          ("ServiceName", Str (Routes.replace_underscore type))]%string))
      w1) as Heff.
    cbn zeta in Heff.
    destruct (cacheAppointment env i _ w1) as [[[]|e] w2]; cbn in Heff |- *;
      by rewrite <- Hc, <- Hs.
Qed.

Lemma retryFailedSyncs_effect w :
  let w' := (retryFailedSyncs env w).2 in
  cache_seq w' = cache_seq w ∧
  (cache w' = cache w ∨ cache w' = reset_row <$> cache w).
Proof.
  unfold retryFailedSyncs, db_update_appointmentCache, db_execute.
  destruct (db_fault env w _); cbn; [by auto|].
  split; [done|]. right. apply update_where_reset.
Qed.

Lemma db_select_appointmentCache_run c limit w :
  let res := db_select_appointmentCache env c limit w in
  res.2 = count_statement w ∧
  ((∃ e, res.1 = Threw e) ∨
   (db_fault env w (SelectAppointmentCache c limit) = None ∧
    res.1 = Returned (select_where c limit (cache w)))).
Proof.
  unfold db_select_appointmentCache, db_execute.
  destruct (db_fault env w _); cbn; eauto.
Qed.

End Handlers.

Section Invariant.
Implicit Types (w : world) (r e : appointmentCache.row).

Lemma rows_id_inj rows r1 r2 :
  NoDup (appointmentCache.id <$> rows) → r1 ∈ rows → r2 ∈ rows →
  appointmentCache.id r1 = appointmentCache.id r2 → r1 = r2.
Proof.
  intros Hnd H1 H2 Heq.
  pose proof (lookup_id_elem_of rows r1 Hnd H1) as E1.
  pose proof (lookup_id_elem_of rows r2 Hnd H2) as E2.
  rewrite Heq in E1. congruence.
Qed.

Lemma store_ok_same w w' :
  cache w' = cache w → cache_seq w' = cache_seq w →
  store_ok w → store_ok w'.
Proof. unfold store_ok. by intros -> ->. Qed.

Lemma store_ok_grown w w' :
  cache w' = cache w → cache_seq w ≤ cache_seq w' →
  store_ok w → store_ok w'.
Proof.
  unfold store_ok. intros -> Hseq (Hnd & Hlt & Hok).
  split; [done|]. split; [|done].
  intros r Hr. specialize (Hlt r Hr). lia.
Qed.

Lemma store_ok_append w w' r :
  cache w' = cache w ++ [r] → cache_seq w' = cache_seq w + 1 →
  appointmentCache.id r = cache_seq w →
  appointmentCache.syncStatus r = Some pending →
  appointmentCache.retryCount r = Some 0 →
  store_ok w → store_ok w'.
Proof.
  unfold store_ok. intros -> -> Hid Hst Hrc (Hnd & Hlt & Hok).
  split; [|split].
  - rewrite fmap_app. apply NoDup_app. split; [done|]. split.
    + intros i Hi Hi'. apply list_elem_of_singleton in Hi' as ->.
      apply list_elem_of_fmap in Hi as (x & Hx & Hin).
      specialize (Hlt x Hin). lia.
    + apply NoDup_singleton.
  - intros x [Hx|Hx]%elem_of_app.
    + specialize (Hlt x Hx). lia.
    + apply list_elem_of_singleton in Hx as ->. lia.
  - intros x [Hx|Hx]%elem_of_app; [by apply Hok|].
    apply list_elem_of_singleton in Hx as ->. split.
    + intros _. exists 0. split; [done|lia].
    + congruence.
Qed.

Lemma reset_row_ok r : row_ok r → row_ok (reset_row r).
Proof.
  intros Hr. unfold reset_row.
  destruct (bool_decide _); [|done]. split; cbn.
  - intros _. exists 0. split; [done|lia].
  - congruence.
Qed.

Lemma store_ok_reset w w' :
  cache w' = reset_row <$> cache w → cache_seq w' = cache_seq w →
  store_ok w → store_ok w'.
Proof.
  unfold store_ok. intros -> -> (Hnd & Hlt & Hok).
  assert (∀ x, appointmentCache.id (reset_row x) = appointmentCache.id x)
    as Hid.
  { intros x. unfold reset_row. by destruct (bool_decide _). }
  split; [|split].
  - rewrite <- list_fmap_compose.
    by rewrite (list_fmap_ext _ appointmentCache.id (cache w))
      by (intros; apply Hid).
  - intros x (y & -> & Hy)%list_elem_of_fmap. rewrite Hid. by apply Hlt.
  - intros x (y & -> & Hy)%list_elem_of_fmap. apply reset_row_ok.
    by apply Hok.
Qed.

(** The two kinds of object a worker step writes keep a pending row within
    the bounds: marked synced, or one attempt more and failed exactly when
    that attempt is the fifth. *)
Lemma worker_write_ok e s :
  row_ok e → appointmentCache.syncStatus e = Some pending →
  ((∃ now, s = set_synced now) ∨ (∃ error now, s = failure_set e error now)) →
  row_ok (apply_set s e).
Proof.
  intros [Hp _] Hst [[now ->]|(error & now & ->)].
  - split; cbn; congruence.
  - destruct (Hp Hst) as (k & Hk & Hrange).
    unfold failure_set, to_number. rewrite Hk. cbn.
    destruct (bool_decide_reflect (k + 1 >= 5)); split; cbn.
    + congruence.
    + intros _. f_equal. lia.
    + intros _. exists (k + 1). split; [done|lia].
    + congruence.
Qed.

Lemma store_ok_update w w' e s :
  e ∈ cache w → appointmentCache.syncStatus e = Some pending →
  cache w' = update_where s (where_id (appointmentCache.id e)) (cache w) →
  cache_seq w' = cache_seq w →
  ((∃ now, s = set_synced now) ∨ (∃ error now, s = failure_set e error now)) →
  store_ok w → store_ok w'.
Proof.
  unfold store_ok. intros He Hst -> -> Hs (Hnd & Hlt & Hok).
  split; [|split].
  - by rewrite update_where_ids.
  - intros x (y & -> & Hy)%list_elem_of_fmap.
    destruct (matches _ y); [rewrite apply_set_id|]; by apply Hlt.
  - intros x (y & -> & Hy)%list_elem_of_fmap. cbn.
    destruct (bool_decide_reflect
                (appointmentCache.id y = appointmentCache.id e)) as [Heq|Hne].
    + rewrite (rows_id_inj (cache w) y e) by done.
      apply worker_write_ok; auto.
    + by apply Hok.
Qed.

(** A row with another key is still in the table after the update. *)
Lemma elem_of_update_other s i rows r :
  r ∈ rows → appointmentCache.id r ≠ i →
  r ∈ update_where s (where_id i) rows.
Proof.
  intros Hr Hne. unfold update_where.
  apply (list_elem_of_fmap_2' _ _ r); [done|]. cbn.
  by rewrite bool_decide_eq_false_2.
Qed.

Lemma select_pending_elem_of n rows e :
  e ∈ select_where (where_syncStatus pending) (Some n) rows →
  e ∈ rows ∧ appointmentCache.syncStatus e = Some pending.
Proof.
  unfold select_where. intros He%subseteq_take.
  apply list_elem_of_filter in He as [Hm He]. split; [done|].
  cbn in Hm. by apply bool_decide_unpack in Hm.
Qed.

Lemma select_where_NoDup c limit rows :
  NoDup (appointmentCache.id <$> rows) →
  NoDup (appointmentCache.id <$> select_where c limit rows).
Proof.
  intros Hnd. eapply sublist_NoDup; [exact Hnd|].
  apply fmap_sublist. unfold select_where.
  destruct limit as [n|]; [|apply sublist_filter; apply _].
  etrans; [apply sublist_take|]. apply sublist_filter; apply _.
Qed.

End Invariant.

Section Reachability.
Variable env : environment.

Lemma invariant_initial : invariant Server.initial.
Proof.
  unfold invariant, store_ok. cbn.
  split; [split; [apply NoDup_nil_2|split]|split; [apply NoDup_nil_2|]];
    by intros ? ?%elem_of_nil.
Qed.

(** A handler that leaves the table alone or appends a fresh pending row
    keeps the invariant, whatever the running cycle holds. *)
Lemma invariant_enqueue s w' :
  ((cache w' = cache (Server.db s) ∧ cache_seq (Server.db s) ≤ cache_seq w') ∨
   (∃ r, cache w' = cache (Server.db s) ++ [r] ∧
         cache_seq w' = cache_seq (Server.db s) + 1 ∧
         appointmentCache.id r = cache_seq (Server.db s) ∧
         appointmentCache.syncStatus r = Some pending ∧
         appointmentCache.retryCount r = Some 0)) →
  invariant s →
  invariant {| Server.db := w'; Server.in_flight := Server.in_flight s |}.
Proof.
  intros Heff (Hstore & Hnd & Hin). unfold invariant. cbn.
  destruct Heff as [[Hc Hs]|(r & Hc & Hs & Hid & Hst & Hrc)].
  - split; [by eapply store_ok_grown|]. split; [done|]. by rewrite Hc.
  - split; [by eapply store_ok_append|]. split; [done|].
    intros e He. destruct (Hin e He) as [Hcache Hp].
    rewrite Hc. split; [|done]. apply elem_of_app. by left.
Qed.

Lemma invariant_retryFailed s :
  invariant s →
  invariant {| Server.db := (retryFailedSyncs env (Server.db s)).2;
               Server.in_flight := Server.in_flight s |}.
Proof.
  intros (Hstore & Hnd & Hin).
  destruct (retryFailedSyncs_effect env (Server.db s)) as [Hs [Hc|Hc]];
    unfold invariant; cbn.
  - split; [by eapply store_ok_same|]. split; [done|]. by rewrite Hc.
  - split; [by eapply store_ok_reset|]. split; [done|].
    intros e He. destruct (Hin e He) as [Hcache Hp].
    rewrite Hc. split; [|done].
    apply (list_elem_of_fmap_2' _ _ e); [done|].
    unfold reset_row. rewrite bool_decide_eq_false_2; [done|congruence].
Qed.

Lemma invariant_worker s : invariant s → invariant (Server.worker_step env s).
Proof.
  intros (Hstore & Hnd & Hin). unfold Server.worker_step.
  destruct (Server.in_flight s) as [|entry rest] eqn:Hflight.
  - destruct (db_select_appointmentCache_run env (where_syncStatus pending)
                (Some 10%nat) (Server.db s)) as [Hw Hres].
    destruct (db_select_appointmentCache env _ _ (Server.db s)) as [o w1].
    cbn in Hw, Hres. subst w1.
    assert (store_ok (count_statement (Server.db s))) as Hstore'
      by (by eapply store_ok_same).
    destruct Hres as [[e ->]|[_ ->]]; unfold invariant; cbn.
    + split; [done|]. split; [apply NoDup_nil_2|].
      by intros ? ?%elem_of_nil.
    + split; [done|]. split.
      * apply select_where_NoDup, Hstore.
      * intros e He. by apply select_pending_elem_of in He.
  - destruct (Hin entry) as [Hentry Hpending]; [by left|].
    rewrite fmap_cons in Hnd. apply NoDup_cons in Hnd as [Hfresh Hnd].
    destruct (syncSingleAppointment_effect env entry (Server.db s))
      as [Hs Hc].
    destruct (syncSingleAppointment env entry (Server.db s)) as [o w1].
    cbn in Hs, Hc.
    assert (store_ok w1) as Hstore'.
    { destruct Hc as [Hc|(st & Hc & Hst)].
      - by eapply store_ok_same.
      - by eapply (store_ok_update (Server.db s) w1 entry st). }
    destruct o as [[]|e]; unfold invariant; cbn.
    + split; [done|]. split; [done|].
      intros e He. destruct (Hin e) as [Hcache Hp]; [by right|].
      split; [|done].
      destruct Hc as [->|(st & -> & _)]; [done|].
      apply elem_of_update_other; [done|].
      intros Heq. apply Hfresh. rewrite <- Heq.
      by apply list_elem_of_fmap_2.
    + split; [done|]. split; [apply NoDup_nil_2|].
      by intros ? ?%elem_of_nil.
Qed.

Lemma invariant_perform s a : invariant s → invariant (Server.perform env s a).
Proof.
  intros Hinv. destruct a; cbn.
  - apply invariant_enqueue; [|done]. apply book_appointment_effect.
  - apply invariant_enqueue; [|done]. apply cacheAppointment_effect.
  - by apply invariant_retryFailed.
  - by apply invariant_worker.
Qed.

Lemma invariant_reachable s : Server.reachable env s → invariant s.
Proof.
  intros [actions ->]. unfold Server.run.
  induction actions as [|a actions IH] using rev_ind.
  - apply invariant_initial.
  - rewrite foldl_app. cbn. by apply invariant_perform.
Qed.

End Reachability.

(** C5, as the code has it.  In every store the server reaches from the
    empty one by bookings, enqueues, administrative resets and worker steps,
    with one worker cycle at a time (a cycle selects its batch only when the
    one before has come to the end of its own) and handlers running between
    any two entries of a cycle, a task whose state is [failed] has
    [retryCount] exactly 5. *)
Theorem failed_tasks_have_five_attempts env s r :
  Server.reachable env s →
  r ∈ cache (Server.db s) →
  appointmentCache.syncStatus r = Some failed →
  appointmentCache.retryCount r = Some 5.
Proof.
  intros Hreach Hr Hfailed.
  destruct (invariant_reachable env s Hreach) as [(_ & _ & Hok) _].
  by apply (Hok r Hr).
Qed.

Lemma failed_tasks_have_five_attempts_witness :
  let s := Server.run Scenario.env_down Scenario.booking_then_five_cycles in
  Server.reachable Scenario.env_down s ∧
  ∃ r, r ∈ cache (Server.db s) ∧
       appointmentCache.syncStatus r = Some failed ∧
       appointmentCache.retryCount r = Some 5.
Proof.
  cbn zeta.
  assert (Server.reachable Scenario.env_down
            (Server.run Scenario.env_down Scenario.booking_then_five_cycles))
    as Hreach by (by eexists).
  split; [exact Hreach|].
  assert (∃ r, cache (Server.db (Server.run Scenario.env_down
                                   Scenario.booking_then_five_cycles)) = [r] ∧
               appointmentCache.syncStatus r = Some failed)
    as (r & Hcache & Hfailed).
  { eexists. split; [vm_compute; reflexivity|reflexivity]. }
  assert (r ∈ cache (Server.db (Server.run Scenario.env_down
                                  Scenario.booking_then_five_cycles))) as Hin
    by (rewrite Hcache; apply list_elem_of_here).
  exists r. split; [exact Hin|]. split; [exact Hfailed|].
  exact (failed_tasks_have_five_attempts Scenario.env_down _ r Hreach Hin
           Hfailed).
Defined.

(** The system with one cycle at a time is a part of the system with
    overlapping cycles: the part in which a cycle begins only when every
    cycle before it has come to the end of its batch. *)
Section Sequential.
Variable env : environment.

Lemma sequential_step s o a :
  one_at_a_time s o →
  ∃ b, one_at_a_time (Server.perform env s a) (Overlapping.perform env o b).
Proof.
  intros (Hdb & finished & Hfin & Hcycles). destruct a.
  - exists (Overlapping.Book clientId providerId dateTime type format).
    split; [cbn; by rewrite Hdb|]. by exists finished.
  - exists (Overlapping.Enqueue appointmentId payload).
    split; [cbn; by rewrite Hdb|]. by exists finished.
  - exists Overlapping.RetryFailed.
    split; [cbn; by rewrite Hdb|]. by exists finished.
  - cbn. unfold Server.worker_step.
    destruct (Server.in_flight s) as [|entry rest] eqn:Hflight.
    + exists Overlapping.Begin. cbn. unfold Overlapping.begin_cycle.
      rewrite Hdb.
      assert (Forall (λ c : list appointmentCache.row, c = [])
                (Overlapping.cycles o)) as Hall.
      { destruct Hcycles as [->|[_ ->]]; [|done].
        apply Forall_app. split; [done|]. by apply Forall_singleton. }
      destruct (db_select_appointmentCache env _ _ (Server.db s))
        as [[batch|e] w]; (split; [done|]); cbn.
      * exists (Overlapping.cycles o). split; [done|]. by left.
      * exists (Overlapping.cycles o). split; [done|]. by right.
    + destruct Hcycles as [Hcycles|[? _]]; [|done].
      exists (Overlapping.Step (length finished)). cbn.
      unfold Overlapping.step_cycle.
      rewrite Hcycles, Hdb, list_lookup_middle by done.
      destruct (syncSingleAppointment env entry (Server.db s))
        as [[[]|e] w]; (split; [done|]); cbn;
        exists finished; (split; [done|]); left;
        rewrite <- (Nat.add_0_r (length finished)), insert_app_r; reflexivity.
Qed.

Lemma sequential_reachable s :
  Server.reachable env s →
  ∃ o, Overlapping.reachable env o ∧ Overlapping.db o = Server.db s.
Proof.
  intros [actions ->].
  assert (∃ o, Overlapping.reachable env o ∧
               one_at_a_time (Server.run env actions) o) as (o & Ho & Hdb & _).
  { unfold Server.run.
    induction actions as [|a actions IH] using rev_ind.
    - exists Overlapping.initial. split; [by exists []|].
      split; [done|]. exists []. split; [done|]. by right.
    - destruct IH as (o & [steps ->] & Hrel). rewrite foldl_app. cbn.
      destruct (sequential_step _ _ a Hrel) as [b Hb].
      eexists. split; [|exact Hb]. exists (steps ++ [b]).
      unfold Overlapping.run. by rewrite foldl_app. }
  eauto.
Qed.

End Sequential.

(** C5 as it is written fails: nothing keeps a cycle from beginning while
    another holds its batch.  After three failed attempts on a task, one
    cycle reads the task and waits for IntakeQ; two later cycles read it,
    fail and leave it failed with five attempts; then the call of the first
    cycle times out, and its step writes the count of its own entry plus
    one: the task is failed with [retryCount] 4. *)
Lemma overlapping_cycles_leave_four_attempts :
  ¬ (∀ env s r,
       Overlapping.reachable env s →
       r ∈ cache (Overlapping.db s) →
       appointmentCache.syncStatus r = Some failed →
       appointmentCache.retryCount r = Some 5).
Proof.
  intros Hclaim.
  assert (∃ r, cache (Overlapping.db
                        (Overlapping.run Scenario.env_down
                           Scenario.booking_then_overlapping_cycles)) = [r] ∧
               appointmentCache.syncStatus r = Some failed ∧
               appointmentCache.retryCount r = Some 4)
    as (r & Hcache & Hfailed & Hcount).
  { eexists. split; [vm_compute; reflexivity|]. split; reflexivity. }
  specialize (Hclaim Scenario.env_down
                (Overlapping.run Scenario.env_down
                   Scenario.booking_then_overlapping_cycles) r
                (ex_intro _ Scenario.booking_then_overlapping_cycles eq_refl)).
  rewrite Hcache in Hclaim.
  specialize (Hclaim (list_elem_of_here _ _) Hfailed). congruence.
Qed.

(** ** C6: what a cycle selects *)



(** ** C7: one task's failure does not touch the others *)

Section Isolation.
Variable env : environment.
Hypothesis db_up : db_available env.
Implicit Types (w : world) (e entry : appointmentCache.row).



Lemma syncSingleAppointment_threw entry w data error :
  JSON_parse env (appointmentCache.payload entry) = Returned data →
  api_post_appointments env w data = Threw error →
  lookup_id (appointmentCache.id entry) (cache w) = Some entry →
  ∃ now, lookup_id (appointmentCache.id entry)
           (cache (syncSingleAppointment env entry w).2)
         = Some (apply_set (failure_set entry client_error now) entry).
Proof.
  intros Hparse Hpost Hstored.
  rewrite (syncSingleAppointment_downstream_threw env entry w data error)
    by done.
  cbn. eexists. by rewrite lookup_id_update_same, Hstored.
Qed.

Lemma syncSingleAppointment_rejected entry w :
  downstream_rejects env entry →
  lookup_id (appointmentCache.id entry) (cache w) = Some entry →
  ∃ now, lookup_id (appointmentCache.id entry)
           (cache (syncSingleAppointment env entry w).2)
         = Some (apply_set (failure_set entry client_error now) entry).
Proof.
  intros (data & Hparse & Hpost) Hstored.
  destruct (Hpost w) as [error Hw].
  by apply (syncSingleAppointment_threw entry w data error).
Qed.







End Isolation.




(** The slip of C8 in a cycle: the call for A throws and IntakeQ answers the
    call for B with an appointment of the declared interface; both requests
    are sent, and B is left pending with one attempt counted, because the
    update of its back-reference has no value to set. *)
Example declared_reply_in_a_cycle :
  let env := Scenario.env_recovers 1 (as_object Scenario.confirmed) in
  let w := Scenario.store [Scenario.task 1 pending 0;
                           Scenario.task 2 pending 0] in
  let res := syncPendingAppointments env w in
  res.1 = Returned tt ∧ intakeq_posts res.2 = 2%nat ∧
  (λ r, (appointmentCache.syncStatus r, appointmentCache.retryCount r,
         appointmentCache.errorMessage r)) <$> cache res.2
  = [(Some pending, Some 1,
      Some "Failed to create appointment in IntakeQ"%string);
     (Some pending, Some 1, Some "No values to set"%string)].
Proof. cbn zeta. repeat split; vm_compute; reflexivity. Qed.

(** ** C8: the back-reference on the appointment *)

(** [response.id] on a reply of the declared interface: the interface has
    [Id], and property names are case sensitive. *)
Lemma declared_reply_has_no_id (a : IntakeQAppointment) :
  get_property (as_object a) "id" = Returned None ∧
  get_property (as_object a) "Id" = Returned (Some (Str (Id a))).
Proof. split; reflexivity. Qed.

Section BackReference.
Variable env : environment.

Lemma db_update_appointmentCache_appts s c w :
  appts (db_update_appointmentCache env s c w).2 = appts w.
Proof.
  unfold db_update_appointmentCache, db_execute.
  by destruct (db_fault env w _).
Qed.

(** A step whose reply has the declared interface comes to its [catch]
    block with the error of the query builder, after one request. *)
Lemma declared_reply_attempt entry w data a :
  JSON_parse env (appointmentCache.payload entry) = Returned data →
  api_post_appointments env w data = Returned (as_object a) →
  attempt_sync env entry w =
  (Threw {| message := Some "No values to set" |}, count_post w).
Proof.
  intros Hparse Hpost.
  unfold attempt_sync, bind, eval, createAppointment, try_catch.
  rewrite Hparse, Hpost.
  by rewrite (proj1 (declared_reply_has_no_id a)).
Qed.

(** Whatever the database does, a step whose reply has the declared
    interface writes nothing to [appointments]. *)
Lemma declared_reply_leaves_appointments entry w data a :
  JSON_parse env (appointmentCache.payload entry) = Returned data →
  api_post_appointments env w data = Returned (as_object a) →
  appts (syncSingleAppointment env entry w).2 = appts w.
Proof.
  intros Hparse Hpost. unfold syncSingleAppointment, try_catch.
  rewrite (declared_reply_attempt entry w data a) by done.
  by rewrite record_failure_unfold, db_update_appointmentCache_appts.
Qed.

(** And such a reply never makes the task synced: the step counts the
    attempt as failed, although IntakeQ has created the appointment. *)
Lemma declared_reply_is_never_synced entry w data a current :
  JSON_parse env (appointmentCache.payload entry) = Returned data →
  api_post_appointments env w data = Returned (as_object a) →
  lookup_id (appointmentCache.id entry) (cache w) = Some current →
  appointmentCache.syncStatus current ≠ Some synced →
  intakeq_posts (syncSingleAppointment env entry w).2 = S (intakeq_posts w) ∧
  ∃ r, lookup_id (appointmentCache.id entry)
         (cache (syncSingleAppointment env entry w).2) = Some r ∧
       appointmentCache.syncStatus r ≠ Some synced.
Proof.
  intros Hparse Hpost Hstored Hcurrent.
  unfold syncSingleAppointment, try_catch.
  rewrite (declared_reply_attempt entry w data a) by done.
  rewrite record_failure_unfold.
  unfold db_update_appointmentCache, db_execute.
  destruct (db_fault env (count_post w) _); cbn.
  - eauto.
  - rewrite lookup_id_update_same, Hstored. cbn. split; [done|].
    eexists. split; [done|]. by apply failure_set_not_synced.
Qed.

End BackReference.

(** C8 fails on the code.  IntakeQ answers the request for task 1 with an
    appointment whose [Id] is [iq-481].  The step reads [response.id], which
    is undefined, so the update of the back-reference has no value to set
    and throws: the [intakeqId] of appointment 1 is still null, and the task
    is pending again with one failed attempt counted, although the
    appointment has been created in IntakeQ. *)
Lemma back_reference_is_not_recorded :
  let entry := Scenario.task 1 pending 0 in
  let w := Scenario.store [entry] in
  let w' := (syncSingleAppointment Scenario.env_up entry w).2 in
  api_post_appointments Scenario.env_up w (Scenario.payload 1)
  = Returned (as_object Scenario.confirmed) ∧
  Id Scenario.confirmed = "iq-481"%string ∧
  intakeq_posts w' = 1%nat ∧
  appointments.intakeqId <$> appts w !! 1 = Some None ∧
  appointments.intakeqId <$> appts w' !! 1 = Some None ∧
  (λ r, (appointmentCache.syncStatus r, appointmentCache.retryCount r,
         appointmentCache.errorMessage r)) <$> lookup_id 1 (cache w')
  = Some (Some pending, Some 1, Some "No values to set"%string).
Proof. cbn zeta. repeat split; vm_compute; reflexivity. Qed.

(** With every reply of the declared interface, the task of a booking is
    sent five times, in five cycles, and ends up failed; the back-reference
    is never written. *)
Example declared_reply_exhausts_the_task :
  let s := Server.run Scenario.env_up Scenario.booking_then_five_cycles in
  intakeq_posts (Server.db s) = 5%nat ∧
  (λ r, (appointmentCache.syncStatus r, appointmentCache.retryCount r,
         appointmentCache.errorMessage r)) <$> cache (Server.db s)
  = [(Some failed, Some 5, Some "No values to set"%string)] ∧
  appointments.intakeqId <$> appts (Server.db s) !! 1 = Some None.
Proof. cbn zeta. repeat split; vm_compute; reflexivity. Qed.

(** With a reply that has an [id], the step records it. *)
Example reply_with_id_is_recorded :
  let entry := Scenario.task 1 pending 0 in
  let w' := (syncSingleAppointment Scenario.env_up_with_id entry
               (Scenario.store [entry])).2 in
  appointments.intakeqId <$> appts w' !! 1 = Some (Some "iq-481"%string) ∧
  appointmentCache.syncStatus <$> lookup_id 1 (cache w') = Some (Some synced).
Proof. cbn zeta. split; vm_compute; reflexivity. Qed.

(** ** C9: the updates of the worker are keyed by id alone *)

(** C9 as it is written fails: the entry was read as pending, the row has
    become synced since, and the step still writes the failure on it. *)
Lemma stale_write_is_applied :
  ¬ (∀ env w entry current,
       lookup_id (appointmentCache.id entry) (cache w) = Some current →
       appointmentCache.syncStatus current ≠
         appointmentCache.syncStatus entry →
       lookup_id (appointmentCache.id entry)
         (cache (syncSingleAppointment env entry w).2) = Some current).
Proof.
  intros Hclaim.
  specialize (Hclaim Scenario.env_down
                (Scenario.store [Scenario.task 1 synced 0])
                (Scenario.task 1 pending 0)
                (Scenario.task 1 synced 0) eq_refl).
  assert (Some synced ≠ Some pending) as Hne by discriminate.
  specialize (Hclaim Hne). vm_compute in Hclaim. discriminate Hclaim.
Qed.

(** C9, as the code has it.  The last statement of a step of the worker is
    one update of the task table with a [.set] object made from the entry
    that was read and from the outcome of the attempt, keyed by the [id] of
    the entry and by nothing else.  Unless the database rejects this
    statement, the step returns and the object has been applied to the row
    with that [id], whatever the row holds by now; when the database rejects
    it, the step throws and the table is as it was.  Rows with another [id]
    are never touched. *)
Theorem worker_update_is_keyed_by_id_alone env entry w :
  let res := syncSingleAppointment env entry w in
  ∃ s w1,
    ((∃ now, s = set_synced now) ∨
     (∃ error now, s = failure_set entry error now)) ∧
    match db_fault env w1
            (UpdateAppointmentCache s (where_id (appointmentCache.id entry)))
    with
    | None =>
        res.1 = Returned tt ∧
        cache res.2 =
          update_where s (where_id (appointmentCache.id entry)) (cache w) ∧
        ∀ current,
          lookup_id (appointmentCache.id entry) (cache w) = Some current →
          lookup_id (appointmentCache.id entry) (cache res.2)
          = Some (apply_set s current)
    | Some e => res.1 = Threw e ∧ cache res.2 = cache w
    end ∧
    (∀ j, j ≠ appointmentCache.id entry →
          lookup_id j (cache res.2) = lookup_id j (cache w)).
Proof.
  cbn zeta.
  assert (∀ j, j ≠ appointmentCache.id entry →
               lookup_id j (cache (syncSingleAppointment env entry w).2)
               = lookup_id j (cache w)) as Hframe.
  { intros j Hj.
    destruct (syncSingleAppointment_effect env entry w)
      as [_ [->|(s & -> & _)]]; [done|].
    by apply lookup_id_update_other. }
  unfold syncSingleAppointment, try_catch in *.
  destruct (attempt_sync env entry w) as [[[]|e] w1] eqn:Htry.
  - apply attempt_sync_returned_at in Htry as (w2 & Hfault & Hc).
    exists (set_synced (Date_now env w2)), w2.
    split; [left; eauto|]. split; [|done].
    rewrite Hfault. cbn. split; [done|]. split; [done|].
    intros current Hcur. by rewrite Hc, lookup_id_update_same, Hcur.
  - apply attempt_sync_threw in Htry as [Hc _].
    rewrite record_failure_unfold in *.
    exists (failure_set entry e (Date_now env w1)), w1.
    split; [right; eauto|]. split; [|done].
    destruct (db_fault env w1 _) as [e'|] eqn:Hfault.
    + rewrite (db_update_appointmentCache_fault _ _ _ _ e') by done.
      by cbn.
    + rewrite db_update_appointmentCache_ok by done. cbn.
      rewrite Hc. split; [done|]. split; [done|].
      intros current Hcur. by rewrite lookup_id_update_same, Hcur.
Qed.

(** The stale write at work: task 1 was read as pending, has become synced
    since, and the step whose call times out writes the failure on it. *)
Example stale_write_evaluated :
  let w := Scenario.store [Scenario.task 1 synced 0] in
  let res := syncSingleAppointment Scenario.env_down
               (Scenario.task 1 pending 0) w in
  res.1 = Returned tt ∧
  (λ r, (appointmentCache.syncStatus r, appointmentCache.retryCount r,
         appointmentCache.errorMessage r)) <$> lookup_id 1 (cache res.2)
  = Some (Some synced, Some 1,
          Some "Failed to create appointment in IntakeQ"%string).
Proof. cbn zeta. split; vm_compute; reflexivity. Qed.

(** ** C10: what the success transition leaves alone *)

(** C10.  When the [try] block of a step goes through, the row of the task
    gets [syncStatus] synced and [syncedAt] set, and every other column
    keeps the value it had in the store: [retryCount], [lastSyncAttempt],
    [errorMessage], [payload], [appointmentId], [createdAt] and [id]. *)
Theorem success_changes_only_status_and_syncedAt env w entry current :
  lookup_id (appointmentCache.id entry) (cache w) = Some current →
  sync_succeeds env entry w →
  ∃ r now,
    lookup_id (appointmentCache.id entry)
      (cache (syncSingleAppointment env entry w).2) = Some r ∧
    appointmentCache.syncStatus r = Some synced ∧
    appointmentCache.syncedAt r = Some now ∧
    appointmentCache.retryCount r = appointmentCache.retryCount current ∧
    appointmentCache.lastSyncAttempt r =
      appointmentCache.lastSyncAttempt current ∧
    appointmentCache.errorMessage r = appointmentCache.errorMessage current ∧
    appointmentCache.payload r = appointmentCache.payload current ∧
    appointmentCache.appointmentId r = appointmentCache.appointmentId current ∧
    appointmentCache.createdAt r = appointmentCache.createdAt current ∧
    appointmentCache.id r = appointmentCache.id current.
Proof.
  intros Hstored Hok.
  destruct (attempt_sync_succeeds env entry w Hok) as [w1 Hrun].
  unfold syncSingleAppointment, try_catch. rewrite Hrun. cbn.
  apply attempt_sync_returned in Hrun as (_ & now & -> & _).
  rewrite lookup_id_update_same, Hstored. cbn.
  eexists _, now. by repeat split.
Qed.

Lemma success_changes_only_status_and_syncedAt_witness :
  let entry := Scenario.task 1 pending 2 in
  let w := Scenario.store [entry] in
  lookup_id 1 (cache w) = Some entry ∧
  sync_succeeds Scenario.env_up_with_id entry w ∧
  ∃ r, lookup_id 1
         (cache (syncSingleAppointment Scenario.env_up_with_id entry w).2)
       = Some r ∧
       appointmentCache.syncStatus r = Some synced ∧
       appointmentCache.retryCount r = Some 2 ∧
       appointmentCache.errorMessage r =
         Some "Failed to create appointment in IntakeQ"%string.
Proof.
  cbn zeta. split; [reflexivity|].
  assert (sync_succeeds Scenario.env_up_with_id (Scenario.task 1 pending 2)
            (Scenario.store [Scenario.task 1 pending 2])) as Hok.
  { exists (Scenario.payload 1), Scenario.confirmed_with_id, (Str "iq-481").
    repeat split; vm_compute; reflexivity. }
  split; [exact Hok|].
  destruct (success_changes_only_status_and_syncedAt Scenario.env_up_with_id
              (Scenario.store [Scenario.task 1 pending 2])
              (Scenario.task 1 pending 2)
              (Scenario.task 1 pending 2) eq_refl Hok)
    as (r & now & Hr & Hs & _ & Hn & _ & He & _).
  exists r. split; [exact Hr|]. split; [exact Hs|]. split; [exact Hn|exact He].
Defined.

(** ** The transition system against the code of a whole cycle *)

Section Cycles.
Variable env : environment.

Lemma worker_steps_loop batch w :
  ∃ n, Nat.iter n (Server.worker_step env)
         {| Server.db := w; Server.in_flight := batch |}
       = {| Server.db := (for_of batch (syncSingleAppointment env) w).2;
            Server.in_flight := [] |}.
Proof.
  revert w. induction batch as [|entry rest IH]; intros w.
  - by exists 0%nat.
  - cbn [for_of]. unfold bind.
    destruct (syncSingleAppointment env entry w) as [[[]|e] w1] eqn:Hstep.
    + destruct (IH w1) as [n Hn]. exists (S n).
      rewrite Nat.iter_succ_r. unfold Server.worker_step at 2. cbn.
      by rewrite Hstep.
    + exists 1%nat. cbn. unfold Server.worker_step. cbn. by rewrite Hstep.
Qed.

(** Steps of the worker from an idle server add up to
    [syncPendingAppointments]. *)
Lemma worker_steps_cycle w :
  ∃ n, Nat.iter n (Server.worker_step env)
         {| Server.db := w; Server.in_flight := [] |}
       = {| Server.db := (syncPendingAppointments env w).2;
            Server.in_flight := [] |}.
Proof.
  destruct (db_fault env w (SelectAppointmentCache (where_syncStatus pending)
                              (Some 10%nat))) as [e|] eqn:Hfault.
  - exists 1%nat. cbn.
    unfold Server.worker_step, syncPendingAppointments, try_catch, bind,
      db_select_appointmentCache, db_execute, ret. cbn. by rewrite Hfault.
  - rewrite syncPendingAppointments_run by done. cbn [snd].
    destruct (worker_steps_loop
                (select_where (where_syncStatus pending) (Some 10%nat) (cache w))
                (count_statement w)) as [n Hn].
    exists (S n). rewrite Nat.iter_succ_r, <- Hn. f_equal.
    unfold Server.worker_step, db_select_appointmentCache, db_execute. cbn.
    by rewrite Hfault.
Qed.

Lemma reachable_perform s a :
  Server.reachable env s → Server.reachable env (Server.perform env s a).
Proof.
  intros [actions ->]. exists (actions ++ [a]).
  unfold Server.run. by rewrite foldl_app.
Qed.

Lemma reachable_worker_steps n s :
  Server.reachable env s →
  Server.reachable env (Nat.iter n (Server.worker_step env) s).
Proof.
  intros Hs. induction n as [|n IH]; [done|]. cbn.
  apply (reachable_perform _ Server.Worker IH).
Qed.

(** So the stores after whole cycles are among the reachable ones. *)
Lemma reachable_cycle w :
  Server.reachable env {| Server.db := w; Server.in_flight := [] |} →
  Server.reachable env
    {| Server.db := (syncPendingAppointments env w).2;
       Server.in_flight := [] |}.
Proof.
  intros Hw. destruct (worker_steps_cycle w) as [n <-].
  by apply reachable_worker_steps.
Qed.

End Cycles.

(** Twelve pending tasks: the cycle takes the first ten. *)
Example batch_of_twelve :
  let rows := (λ i, Scenario.task i pending 0) <$> seqZ 1 12 in
  appointmentCache.id <$>
    select_where (where_syncStatus pending) (Some 10%nat) rows
  = seqZ 1 10.
Proof. vm_compute. reflexivity. Qed.

(** A task that has failed at every attempt, as selected before its fifth:
    attempts do not make it less eligible. *)
Example batch_ignores_attempts :
  select_where (where_syncStatus pending) (Some 10%nat)
    [Scenario.task 1 synced 0; Scenario.task 2 pending 4;
     Scenario.task 3 failed 5; Scenario.task 4 pending 0]
  = [Scenario.task 2 pending 4; Scenario.task 4 pending 0].
Proof. reflexivity. Qed.

(** The scenario of the counterexample to C2, evaluated: IntakeQ created
    the appointment, the update of the back-reference threw, and the task is
    pending again with one attempt counted and the database error as its
    message. *)
Example back_reference_fault_evaluated :
  let entry := Scenario.task 1 pending 0 in
  let w' := (syncSingleAppointment Scenario.env_back_reference_fault entry
               (Scenario.store [entry])).2 in
  intakeq_posts w' = 1%nat ∧
  (λ r, (appointmentCache.syncStatus r, appointmentCache.retryCount r,
         appointmentCache.errorMessage r, appointmentCache.syncedAt r))
    <$> lookup_id 1 (cache w')
  = Some (Some pending, Some 1, Some "deadlock detected"%string, None).
Proof. split; vm_compute; reflexivity. Qed.

(** The end-to-end scenarios of the specification: four failures and then a
    success (with a reply that has an [id]) leave the task synced with four
    attempts counted; five failures leave it failed, and the reset re-admits
    it. *)
Example four_failures_then_success :
  let env := Scenario.env_recovers 4 Scenario.confirmed_with_id in
  (λ r, (appointmentCache.syncStatus r, appointmentCache.retryCount r))
    <$> cache (Server.db (Server.run env Scenario.booking_then_five_cycles))
  = [(Some synced, Some 4)].
Proof. vm_compute. reflexivity. Qed.

Example five_failures_then_reset :
  (λ r, (appointmentCache.syncStatus r, appointmentCache.retryCount r,
         appointmentCache.errorMessage r))
    <$> cache (Server.db (Server.run Scenario.env_down
                            (Scenario.booking_then_five_cycles
                             ++ [Server.RetryFailed])))
  = [(Some pending, Some 0, None)].
Proof. vm_compute. reflexivity. Qed.

Section Booking.
Variable env : environment.

(** A booking answered with 200 has stored the appointment and enqueued one
    pending task for it, without a request to IntakeQ. *)
Lemma booking_enqueues_one_task clientId providerId dateTime type format w w' :
  Routes.book_appointment env clientId providerId dateTime type format w
  = (Returned 200, w') →
  (∃ r, cache w' = cache w ++ [r] ∧
        appointmentCache.appointmentId r = appts_seq w ∧
        appointmentCache.syncStatus r = Some pending ∧
        appointmentCache.retryCount r = Some 0) ∧
  is_Some (appts w' !! appts_seq w) ∧
  intakeq_posts w' = intakeq_posts w.
Proof.
  unfold Routes.book_appointment, try_catch, bind, ret.
  destruct (_ || _); [intros [= ?]; lia|].
  unfold db_insert_appointments at 1. unfold db_execute.
  destruct (db_fault env w _); [intros [= ?]; lia|].
  destruct (_ && _); [|intros [= ?]; lia].
  set (w1 := with_appts_seq _ _).
  destruct (cacheAppointment env (appts_seq (count_statement w)) _ w1)
    as [[[]|e] w2] eqn:Hrun; [|intros [= ?]; lia].
  intros [= <-].
  apply cacheAppointment_adds_one_row in Hrun
    as ((r & Hc & Hst & Hrc & Hid) & Happts & Hposts).
  split; [|split].
  - exists r. by rewrite Hc.
  - rewrite Happts. subst w1. cbn. rewrite lookup_insert_eq. by eexists.
  - by rewrite Hposts.
Qed.

End Booking.

(** The limit of the isolation of C7: when the database rejects the update
    of the [catch] block itself, the throw leaves the loop (the cycle still
    returns), and the entries after it are not attempted in this cycle. *)
Example database_fault_leaves_the_loop :
  let env := Scenario.env_failure_record_fault in
  let w := Scenario.store [Scenario.task 1 pending 0;
                           Scenario.task 2 pending 0] in
  let res := syncPendingAppointments env w in
  res.1 = Returned tt ∧ intakeq_posts res.2 = 1%nat ∧ cache res.2 = cache w.
Proof. cbn zeta. repeat split; vm_compute; reflexivity. Qed.

(** * Further properties of the code *)

(** ** What an action does to the task table *)

Section Changes.
Variable env : environment.
Implicit Types (w : world) (s : Server.state).

Lemma change_same a flight w w' :
  cache w' = cache w → cache_seq w' = cache_seq w →
  cache_change a flight w w'.
Proof. intros Hc Hs. apply change_none; [done|lia]. Qed.

Lemma cacheAppointment_change a flight appointmentId payload w :
  a ≠ Server.RetryFailed → a ≠ Server.Worker →
  cache_change a flight w (cacheAppointment env appointmentId payload w).2.
Proof.
  intros Ha1 Ha2.
  unfold cacheAppointment, db_insert_appointmentCache, db_execute.
  destruct (db_fault env w _); [apply change_none; cbn; [done|lia]|].
  destruct (JSON_stringify env payload);
    [|apply change_none; cbn; [done|lia]].
  cbn. destruct (appts w !! appointmentId); cbn;
    [|apply change_none; cbn; [done|lia]].
  by eapply change_insert.
Qed.

Lemma book_appointment_change flight clientId providerId dateTime type format w :
  cache_change (Server.Book clientId providerId dateTime type format) flight w
    (Routes.book_appointment env clientId providerId dateTime type format w).2.
Proof.
  unfold Routes.book_appointment, try_catch, bind, ret.
  destruct (_ || _); [by apply change_same|].
  pose proof (db_insert_appointments_cache env
    {| v_clientId := clientId; v_providerId := providerId;
       v_dateTime := dateTime;
       v_duration := default 60 (Routes.durations !! type);
       v_type := type; v_format := format; v_status := "scheduled" |} w)
    as [Hc Hs].
  destruct (db_insert_appointments env _ w) as [[i|e] w1]; cbn in Hc, Hs;
    [|by apply change_same].
  pose proof (cacheAppointment_change
    (Server.Book clientId providerId dateTime type format) flight i
    (Obj (list_to_map
       [("ClientId", Num clientId); ("ProviderId", Num providerId);
        ("DateTime", Str dateTime);
        ("Duration", Num (default 60 (Routes.durations !! type)));
        ("ServiceName", Str (Routes.replace_underscore type))]%string))
    w1 ltac:(discriminate) ltac:(discriminate)) as Hchange.
  destruct (cacheAppointment env i _ w1) as [[[]|e] w2]; cbn in Hchange |- *;
    (destruct Hchange as [Hc' Hs'|r ? ? Hc' Hs' Hid Hst Hrc Hat| |];
      [apply change_none; [congruence|lia]
      |eapply change_insert; try done; congruence
      |done|done]).
Qed.

Lemma worker_step_change s :
  cache_change Server.Worker (Server.in_flight s) (Server.db s)
    (Server.db (Server.worker_step env s)).
Proof.
  unfold Server.worker_step.
  destruct (Server.in_flight s) as [|entry rest].
  - destruct (db_select_appointmentCache_run env (where_syncStatus pending)
                (Some 10%nat) (Server.db s)) as [Hw _].
    destruct (db_select_appointmentCache env _ _ (Server.db s)) as [[l|e] w1];
      cbn in Hw |- *; subst w1; by apply change_same.
  - destruct (syncSingleAppointment_effect env entry (Server.db s))
      as [Hs Hc].
    destruct (syncSingleAppointment env entry (Server.db s)) as [[[]|e] w1];
      cbn in Hs, Hc |- *;
      (destruct Hc as [Hc|(st & Hc & Hst)];
        [by apply change_same|by eapply change_sync]).
Qed.

(** Every action of the server changes the task table in one of the four
    ways. *)
Lemma perform_change s a :
  cache_change a (Server.in_flight s) (Server.db s)
    (Server.db (Server.perform env s a)).
Proof.
  destruct a; cbn.
  - apply book_appointment_change.
  - by apply cacheAppointment_change.
  - destruct (retryFailedSyncs_effect env (Server.db s)) as [Hs [Hc|Hc]].
    + by apply change_same.
    + by apply change_reset.
  - apply worker_step_change.
Qed.

End Changes.

(** ** The life of a task *)

Section Lifecycle.
Variable env : environment.
Implicit Types (s : Server.state) (r : appointmentCache.row).

Lemma update_where_lookup st c (rows : list appointmentCache.row) (i : nat) :
  update_where st c rows !! i =
  (λ r, if matches c r then apply_set st r else r) <$> rows !! i.
Proof. unfold update_where. apply list_lookup_fmap. Qed.

Lemma same_task_refl r : same_task r r.
Proof. by repeat split. Qed.

Lemma same_task_reset r : same_task r (reset_row r).
Proof. unfold reset_row. destruct (bool_decide _); by repeat split. Qed.

(** X1.  Tasks are never deleted or re-addressed.  Whatever the server does
    next, every task of the table is still in the table, as a row with the
    same [id], [appointmentId], [payload] and [createdAt]. *)
Theorem tasks_keep_their_identity s a r :
  r ∈ cache (Server.db s) →
  ∃ r', r' ∈ cache (Server.db (Server.perform env s a)) ∧ same_task r r'.
Proof.
  intros Hr.
  destruct (perform_change env s a)
    as [Hc _|r0 _ _ Hc _ _ _ _ _|_ Hc _|entry rest st _ _ Hc _ _];
    rewrite Hc.
  - exists r. split; [done|apply same_task_refl].
  - exists r. split; [|apply same_task_refl].
    apply elem_of_app. by left.
  - exists (reset_row r). split; [|apply same_task_reset].
    by apply list_elem_of_fmap_2.
  - eexists. split.
    + unfold update_where. by apply list_elem_of_fmap_2.
    + cbn. destruct (bool_decide _); by repeat split.
Qed.

(** Under the invariant, the write of a worker step lands on the entry
    itself, which is pending: a row in another state has another [id]. *)
Lemma sync_write_misses s entry rest r st :
  invariant s → Server.in_flight s = entry :: rest →
  r ∈ cache (Server.db s) →
  appointmentCache.syncStatus r ≠ Some pending →
  (if matches (where_id (appointmentCache.id entry)) r
   then apply_set st r else r) = r.
Proof.
  intros (Hstore & _ & Hin) Hflight Hr Hstatus.
  destruct (Hin entry) as [Hentry Hpending]; [rewrite Hflight; by left|].
  cbn. destruct (bool_decide_reflect
    (appointmentCache.id r = appointmentCache.id entry)) as [Heq|]; [|done].
  destruct Hstore as (Hnd & _).
  rewrite (rows_id_inj _ r entry Hnd Hr Hentry Heq) in Hstatus. done.
Qed.

(** X2.  Synced is terminal.  In a reachable state, no action of the server
    changes a synced row in any column. *)
Theorem synced_is_terminal s a (i : nat) r :
  Server.reachable env s →
  cache (Server.db s) !! i = Some r →
  appointmentCache.syncStatus r = Some synced →
  cache (Server.db (Server.perform env s a)) !! i = Some r.
Proof.
  intros Hreach Hr Hsynced.
  pose proof (invariant_reachable env s Hreach) as Hinv.
  destruct (perform_change env s a)
    as [Hc _|r0 _ _ Hc _ _ _ _ _|_ Hc _|entry rest st _ Hflight Hc _ _];
    rewrite Hc.
  - done.
  - by apply lookup_app_l_Some.
  - rewrite list_lookup_fmap, Hr. cbn. unfold reset_row.
    rewrite bool_decide_eq_false_2; [done|congruence].
  - rewrite update_where_lookup, Hr. cbn [fmap option_fmap option_map].
    f_equal. eapply sync_write_misses; try done.
    + by eapply list_elem_of_lookup_2.
    + congruence.
Qed.

(** X3.  Failed is terminal but for the reset.  In a reachable state, no
    action other than the administrative reset changes a failed row. *)
Theorem failed_is_terminal_but_for_reset s a (i : nat) r :
  Server.reachable env s →
  a ≠ Server.RetryFailed →
  cache (Server.db s) !! i = Some r →
  appointmentCache.syncStatus r = Some failed →
  cache (Server.db (Server.perform env s a)) !! i = Some r.
Proof.
  intros Hreach Ha Hr Hfailed.
  pose proof (invariant_reachable env s Hreach) as Hinv.
  destruct (perform_change env s a)
    as [Hc _|r0 _ _ Hc _ _ _ _ _|Hreset _ _|entry rest st _ Hflight Hc _ _];
    [rewrite Hc..|done|rewrite Hc].
  - done.
  - by apply lookup_app_l_Some.
  - rewrite update_where_lookup, Hr. cbn [fmap option_fmap option_map].
    f_equal. eapply sync_write_misses; try done.
    + by eapply list_elem_of_lookup_2.
    + congruence.
Qed.

(** X4.  Only the worker touches a pending task.  Bookings, enqueues and the
    reset leave every pending row as it is. *)
Theorem handlers_leave_pending_tasks s a (i : nat) r :
  a ≠ Server.Worker →
  cache (Server.db s) !! i = Some r →
  appointmentCache.syncStatus r = Some pending →
  cache (Server.db (Server.perform env s a)) !! i = Some r.
Proof.
  intros Ha Hr Hpending.
  destruct (perform_change env s a)
    as [Hc _|r0 _ _ Hc _ _ _ _ _|_ Hc _|entry rest st Hworker _ _ _ _];
    [rewrite Hc..|done].
  - done.
  - by apply lookup_app_l_Some.
  - rewrite list_lookup_fmap, Hr. cbn. unfold reset_row.
    rewrite bool_decide_eq_false_2; [done|congruence].
Qed.

End Lifecycle.

(** ** Settled rows *)

Section Settled.
Variable env : environment.
Implicit Types (s : Server.state) (r : appointmentCache.row).

Lemma row_settled_reset r : row_settled r → row_settled (reset_row r).
Proof.
  intros (Hst & Hat & Hid). unfold reset_row.
  destruct (bool_decide_reflect
    (appointmentCache.syncStatus r = Some failed)) as [Hf|]; [|done].
  split; [done|]. split; [|done]. cbn. split; [done|].
  intros Hsome. apply Hat in Hsome. congruence.
Qed.

Lemma row_settled_write entry st :
  row_settled entry → appointmentCache.syncStatus entry = Some pending →
  ((∃ now, st = set_synced now) ∨
   (∃ error now, st = failure_set entry error now)) →
  row_settled (apply_set st entry).
Proof.
  intros (Hst & Hat & Hid) Hpending [[now ->]|(error & now & ->)].
  - split; [done|]. split; [|done]. cbn. done.
  - assert (appointmentCache.syncedAt entry = None) as Hnone.
    { destruct (appointmentCache.syncedAt entry) eqn:E; [|done].
      assert (appointmentCache.syncStatus entry = Some synced)
        by (apply Hat; congruence). congruence. }
    unfold failure_set, row_settled.
    destruct (bool_decide _); cbn; rewrite ?Hpending, Hnone;
      (split; [done|]); (split; [|done]); split; done.
Qed.

Lemma store_settled_change a s w' :
  invariant s → store_settled (Server.db s) →
  cache_change a (Server.in_flight s) (Server.db s) w' →
  store_settled w'.
Proof.
  intros Hinv [Hseq Hrows]
    [Hc Hs|r0 _ _ Hc Hs Hid Hst Hrc Hat|_ Hc Hs|entry rest st _ Hflight Hc Hs Hw];
    unfold store_settled; rewrite Hc; [|rewrite Hs..].
  - split; [lia|done].
  - split; [lia|]. intros r [Hr|Hr]%elem_of_app; [by apply Hrows|].
    apply list_elem_of_singleton in Hr as ->.
    split; [congruence|]. split; [|lia]. rewrite Hst, Hat. split; done.
  - split; [done|]. intros r (x & -> & Hx)%list_elem_of_fmap.
    by apply row_settled_reset, Hrows.
  - split; [done|]. intros r (x & -> & Hx)%list_elem_of_fmap.
    destruct Hinv as (Hstore & _ & Hin).
    destruct (Hin entry) as [Hentry Hpending]; [rewrite Hflight; by left|].
    cbn. destruct (bool_decide_reflect
      (appointmentCache.id x = appointmentCache.id entry)) as [Heq|];
      [|by apply Hrows].
    destruct Hstore as (Hnd & _).
    rewrite (rows_id_inj _ x entry Hnd Hx Hentry Heq).
    apply row_settled_write; auto.
Qed.

Lemma settled_reachable s : Server.reachable env s → store_settled (Server.db s).
Proof.
  intros [actions ->]. unfold Server.run.
  induction actions as [|a actions IH] using rev_ind.
  - split; [done|]. by intros r ?%elem_of_nil.
  - rewrite foldl_app. cbn.
    eapply store_settled_change; [|exact IH|apply perform_change].
    apply (invariant_reachable env). by exists actions.
Qed.

Lemma settled_status_known s r :
  Server.reachable env s → r ∈ cache (Server.db s) →
  appointmentCache.syncStatus r ≠ None.
Proof.
  intros Hreach Hr. destruct (settled_reachable s Hreach) as [_ Hrows].
  by destruct (Hrows r Hr) as (Hst & _).
Qed.

(** X5.  [syncedAt] is the mark of a synced task.  In every store the server
    reaches with one worker cycle at a time, a task has [syncedAt] set if and
    only if its state is synced, and the state of a task is never null. *)
Theorem syncedAt_marks_synced_tasks s r :
  Server.reachable env s →
  r ∈ cache (Server.db s) →
  appointmentCache.syncStatus r ≠ None ∧
  (appointmentCache.syncStatus r = Some synced ↔
   appointmentCache.syncedAt r ≠ None).
Proof.
  intros Hreach Hr.
  destruct (settled_reachable s Hreach) as [_ Hrows].
  destruct (Hrows r Hr) as (Hst & Hat & _). done.
Qed.

(** With two cycles at once the mark is lost: both read the task with four
    attempts, the request of one is answered and its step marks the task as
    synced, the request of the other times out and its step, the fifth
    failure of its entry, sets the task to failed; [syncedAt] stays. *)
Example overlapping_cycles_leave_failed_task_with_syncedAt :
  let env := Scenario.env_answers_once 4 Scenario.confirmed_with_id in
  let s := Overlapping.run env Scenario.booking_then_two_cycles_at_once in
  (λ r, (appointmentCache.syncStatus r, appointmentCache.retryCount r,
         appointmentCache.syncedAt r)) <$> cache (Overlapping.db s)
  = [(Some failed, Some 5, Some 1767609390000)] ∧
  appointments.intakeqId <$> appts (Overlapping.db s) !! 1
  = Some (Some "iq-481"%string).
Proof. cbn zeta. split; vm_compute; reflexivity. Qed.

(** X6.  Ids are a key.  In every reachable store no two tasks have the same
    [id], every [id] is at least 1 and below the next value of the sequence,
    so that the next enqueue gets an [id] no task has. *)
Theorem task_ids_are_unique s :
  Server.reachable env s →
  NoDup (appointmentCache.id <$> cache (Server.db s)) ∧
  (∀ r, r ∈ cache (Server.db s) →
        1 ≤ appointmentCache.id r < cache_seq (Server.db s)) ∧
  lookup_id (cache_seq (Server.db s)) (cache (Server.db s)) = None.
Proof.
  intros Hreach.
  destruct (invariant_reachable env s Hreach) as [(Hnd & Hlt & _) _].
  destruct (settled_reachable s Hreach) as [_ Hrows].
  split; [done|]. split.
  - intros r Hr. destruct (Hrows r Hr) as (_ & _ & Hid).
    specialize (Hlt r Hr). lia.
  - destruct (lookup_id _ _) as [x|] eqn:Hx; [|done].
    apply lookup_id_Some in Hx as [Hin Hid]. specialize (Hlt x Hin). lia.
Qed.

End Settled.

(** ** Statistics *)

Section StatisticsProperties.
Variable env : environment.
Hypothesis db_up : db_available env.
Implicit Types (w : world) (rows : list appointmentCache.row).

Lemma select_all_count st rows :
  length (select_where (where_syncStatus st) None rows) = count_status st rows.
Proof.
  unfold select_where, count_status. f_equal.
  apply list_filter_iff. intros r. cbn. apply bool_decide_spec.
Qed.

(** With the database answering, the statistics are the counts of the
    table and reading them changes no table. *)
Lemma getCacheStats_run w :
  getCacheStats env w =
  (Returned {| Stats.pending := count_status pending (cache w);
               Stats.synced := count_status synced (cache w);
               Stats.failed := count_status failed (cache w);
               Stats.total := count_status pending (cache w)
                              + count_status synced (cache w)
                              + count_status failed (cache w) |},
   count_statement (count_statement (count_statement w))).
Proof.
  unfold getCacheStats, bind, db_select_appointmentCache, db_execute, ret.
  rewrite !db_up. cbn. by rewrite !select_all_count.
Qed.

Lemma count_status_total rows :
  (∀ r, r ∈ rows → appointmentCache.syncStatus r ≠ None) →
  (count_status pending rows + count_status synced rows
   + count_status failed rows = length rows)%nat.
Proof.
  induction rows as [|r rows IH]; intros Hknown; [done|].
  assert (appointmentCache.syncStatus r ≠ None) as Hr
    by (apply Hknown; by left).
  specialize (IH (λ x Hx, Hknown x (list_elem_of_further _ _ _ Hx))).
  unfold count_status in *. rewrite !filter_cons.
  destruct (appointmentCache.syncStatus r) as [[]|] eqn:E; [..|done];
    repeat case_decide; try congruence; cbn [length]; lia.
Qed.

Lemma count_status_reset rows :
  count_status pending (reset_row <$> rows)
  = (count_status pending rows + count_status failed rows)%nat ∧
  count_status synced (reset_row <$> rows) = count_status synced rows ∧
  count_status failed (reset_row <$> rows) = 0%nat.
Proof.
  induction rows as [|r rows (IH1 & IH2 & IH3)]; [done|].
  unfold count_status in *. rewrite fmap_cons, !filter_cons.
  assert (appointmentCache.syncStatus (reset_row r) =
          if bool_decide (appointmentCache.syncStatus r = Some failed)
          then Some pending else appointmentCache.syncStatus r) as Hs.
  { unfold reset_row. by destruct (bool_decide _). }
  destruct (bool_decide_reflect
    (appointmentCache.syncStatus r = Some failed)) as [Hf|Hf];
    repeat case_decide; try congruence;
    cbn [length]; repeat split; lia.
Qed.

End StatisticsProperties.

Section StatisticsTheorems.
Variable env : environment.
Implicit Types (w : world).

Lemma same_tables_count_statement w : same_tables w (count_statement w).
Proof. by repeat split. Qed.

Lemma same_tables_trans w1 w2 w3 :
  same_tables w1 w2 → same_tables w2 w3 → same_tables w1 w3.
Proof.
  unfold same_tables. intros (?&?&?&?&?) (?&?&?&?&?).
  repeat split; congruence.
Qed.

Lemma db_select_same_tables c limit w :
  same_tables w (db_select_appointmentCache env c limit w).2.
Proof.
  destruct (db_select_appointmentCache_run env c limit w) as [-> _].
  apply same_tables_count_statement.
Qed.

(** Reading the statistics changes no table, whether the queries are
    answered or not. *)
Lemma getCacheStats_same_tables w : same_tables w (getCacheStats env w).2.
Proof.
  unfold getCacheStats, bind, ret.
  pose proof (db_select_same_tables (where_syncStatus pending) None w) as H1.
  destruct (db_select_appointmentCache env (where_syncStatus pending) None w)
    as [[l1|e] w1]; cbn in H1; [|done].
  pose proof (db_select_same_tables (where_syncStatus synced) None w1) as H2.
  destruct (db_select_appointmentCache env (where_syncStatus synced) None w1)
    as [[l2|e] w2]; cbn in H2; [|by eapply same_tables_trans].
  pose proof (db_select_same_tables (where_syncStatus failed) None w2) as H3.
  destruct (db_select_appointmentCache env (where_syncStatus failed) None w2)
    as [[l3|e] w3]; cbn in H3;
    eapply same_tables_trans; try exact H3; by eapply same_tables_trans.
Qed.

(** With nothing between the queries, the interleaved run is the run of
    [getCacheStats]. *)
Lemma getCacheStats_quiescent w :
  getCacheStats_interleaved env id id w = getCacheStats env w.
Proof.
  unfold getCacheStats_interleaved, getCacheStats, bind.
  destruct (db_select_appointmentCache env (where_syncStatus pending) None w)
    as [[l1|e] w1]; [|done]. cbn.
  by destruct (db_select_appointmentCache env (where_syncStatus synced) None w1)
    as [[l2|e] w2].
Qed.

(** X7.  The statistics count every task when the task table is at rest.  In
    a store the server reaches with one worker cycle at a time, with the
    database answering and with no write to the task table landing between
    the three queries, [getCacheStats] returns the number of pending, of
    synced and of failed rows, and its [total] is the number of rows of the
    table; run with nothing at all between its queries, it changes no
    table. *)
Theorem stats_count_every_task s between1 between2 :
  db_available env →
  Server.reachable env s →
  (∀ w, cache (between1 w) = cache w) →
  (∀ w, cache (between2 w) = cache w) →
  let res := getCacheStats_interleaved env between1 between2 (Server.db s) in
  (∃ st, res.1 = Returned st ∧
         Stats.pending st = count_status pending (cache (Server.db s)) ∧
         Stats.synced st = count_status synced (cache (Server.db s)) ∧
         Stats.failed st = count_status failed (cache (Server.db s)) ∧
         Stats.total st = length (cache (Server.db s))) ∧
  getCacheStats env (Server.db s)
  = getCacheStats_interleaved env id id (Server.db s) ∧
  same_tables (Server.db s) (getCacheStats env (Server.db s)).2.
Proof.
  intros Hdb Hreach H1 H2. cbn zeta.
  split; [|split; [by rewrite getCacheStats_quiescent
                  |apply getCacheStats_same_tables]].
  unfold getCacheStats_interleaved, bind, db_select_appointmentCache,
    db_execute, ret.
  rewrite !Hdb. cbn.
  eexists. split; [done|]. cbn. rewrite !select_all_count.
  repeat first [rewrite H1 | rewrite H2 | progress cbn].
  repeat split.
  apply count_status_total. intros r Hr.
  by apply (settled_status_known env s).
Qed.

(** Off the quiescent points the counts need not belong to one store: the
    worker synchronises the only task between the first and the second
    query, and the statistics show it twice. *)
Example stats_are_not_a_snapshot :
  let env := Scenario.env_up_with_id in
  let entry := Scenario.task 1 pending 0 in
  let worker w := (syncSingleAppointment env entry w).2 in
  (getCacheStats_interleaved env worker id (Scenario.store [entry])).1
  = Returned {| Stats.pending := 1; Stats.synced := 1; Stats.failed := 0;
                Stats.total := 2 |}.
Proof. vm_compute. reflexivity. Qed.

(** X8.  The reset in the statistics.  With the database answering, the
    statistics read after [retryFailedSyncs] show no failed task, the
    failed tasks of before added to the pending ones, and the same synced
    count and total. *)
Theorem reset_moves_failed_to_pending w :
  db_available env →
  ∃ before after,
    (getCacheStats env w).1 = Returned before ∧
    (getCacheStats env (retryFailedSyncs env w).2).1 = Returned after ∧
    Stats.failed after = 0%nat ∧
    Stats.pending after = (Stats.pending before + Stats.failed before)%nat ∧
    Stats.synced after = Stats.synced before ∧
    Stats.total after = Stats.total before.
Proof.
  intros Hdb. rewrite !(getCacheStats_run env Hdb).
  assert (cache (retryFailedSyncs env w).2 = reset_row <$> cache w) as ->.
  { unfold retryFailedSyncs.
    by rewrite db_update_appointmentCache_ok by apply Hdb. }
  destruct (count_status_reset (cache w)) as (Hp & Hs & Hf).
  eexists _, _. split; [done|]. split; [done|]. cbn [fst snd].
  unfold Stats.failed, Stats.pending, Stats.synced, Stats.total.
  rewrite Hp, Hs, Hf. repeat split; lia.
Qed.

(** X9.  The administrative endpoints always answer.  [GET
    /api/cache/stats] answers 200 with statistics or 500 without, and
    changes no table either way; [POST /api/cache/retry-failed] answers
    200, and then no failed task is left, or 500, and then no table has
    changed. *)
Theorem admin_endpoints_always_answer w :
  (let res := Api.get_cache_stats env w in
   ((∃ st, res.1 = Returned (200, Some st)) ∨ res.1 = Returned (500, None)) ∧
   same_tables w res.2) ∧
  (let res := Api.post_cache_retry_failed env w in
   (res.1 = Returned 200 ∧
    ∀ r, r ∈ cache res.2 → appointmentCache.syncStatus r ≠ Some failed) ∨
   (res.1 = Returned 500 ∧ same_tables w res.2)).
Proof.
  split; cbn zeta.
  - pose proof (getCacheStats_same_tables w) as Hsame.
    unfold Api.get_cache_stats, try_catch, bind, ret.
    destruct (getCacheStats env w) as [[st|e] w1]; cbn in Hsame |- *;
      split; eauto.
  - unfold Api.post_cache_retry_failed, try_catch, bind, ret,
      retryFailedSyncs, db_update_appointmentCache, db_execute.
    destruct (db_fault env w _); cbn.
    + right. split; [done|]. apply same_tables_count_statement.
    + left. split; [done|]. rewrite update_where_reset.
      intros r (x & -> & _)%list_elem_of_fmap. unfold reset_row.
      destruct (bool_decide_reflect
        (appointmentCache.syncStatus x = Some failed)); [done|congruence].
Qed.

End StatisticsTheorems.

(** ** The retry budget *)

Section Budget.
Variable env : environment.
Hypothesis db_up : db_available env.

Lemma attempts_rejected (n : nat) : ∀ w entry k,
  downstream_rejects env entry →
  lookup_id (appointmentCache.id entry) (cache w) = Some entry →
  appointmentCache.syncStatus entry = Some pending →
  appointmentCache.retryCount entry = Some k →
  0 ≤ k < 5 → k + Z.of_nat n ≤ 5 →
  ∃ r, lookup_id (appointmentCache.id entry)
         (cache (attempts env n (appointmentCache.id entry) w)) = Some r ∧
       appointmentCache.retryCount r = Some (k + Z.of_nat n) ∧
       appointmentCache.syncStatus r =
         Some (if bool_decide (k + Z.of_nat n < 5) then pending else failed) ∧
       same_task entry r.
Proof.
  induction n as [|n IH]; intros w entry k Hrej Hstored Hpending Hcount Hk Hn.
  - exists entry. cbn [attempts]. split; [done|].
    rewrite Z.add_0_r. split; [done|]. split; [|apply same_task_refl].
    rewrite bool_decide_eq_true_2 by lia. done.
  - cbn [attempts]. rewrite Hstored.
    destruct (syncSingleAppointment_rejected env db_up entry w Hrej Hstored)
      as [now Hnext].
    set (next := apply_set (failure_set entry client_error now) entry) in *.
    assert (appointmentCache.retryCount next = Some (k + 1) ∧
            appointmentCache.syncStatus next =
              Some (if bool_decide (k + 1 < 5) then pending else failed) ∧
            same_task entry next) as (Hc' & Hp' & Hsame').
    { unfold next, failure_set, to_number. rewrite Hcount. cbn.
      destruct (bool_decide_reflect (k + 1 >= 5));
        [rewrite bool_decide_eq_false_2 by lia
        |rewrite bool_decide_eq_true_2 by lia];
        cbn; rewrite ?Hpending; by repeat split. }
    replace (k + Z.of_nat (S n)) with (k + 1 + Z.of_nat n) in * by lia.
    destruct n as [|n].
    + exists next. cbn [attempts]. rewrite Z.add_0_r. by repeat split.
    + rewrite bool_decide_eq_true_2 in Hp' by lia.
      destruct (IH (syncSingleAppointment env entry w).2 next (k + 1))
        as (r & Hr & Hrc & Hst & Hsame); try done; try lia.
      exists r. split; [exact Hr|]. split; [done|]. split; [done|].
      destruct Hsame as (?&?&?&?), Hsame' as (?&?&?&?).
      repeat split; congruence.
Qed.

End Budget.

(** X10.  The retry budget is five attempts.  With the database answering, a
    new task whose downstream call throws at every attempt is still pending,
    with [retryCount] [n], after [n < 5] attempts, and is failed with
    [retryCount] 5 after the fifth; it is the same task throughout. *)
Theorem five_failures_exhaust_a_task env w entry (n : nat) :
  db_available env →
  downstream_rejects env entry →
  lookup_id (appointmentCache.id entry) (cache w) = Some entry →
  appointmentCache.syncStatus entry = Some pending →
  appointmentCache.retryCount entry = Some 0 →
  (n ≤ 5)%nat →
  ∃ r, lookup_id (appointmentCache.id entry)
         (cache (attempts env n (appointmentCache.id entry) w)) = Some r ∧
       appointmentCache.retryCount r = Some (Z.of_nat n) ∧
       appointmentCache.syncStatus r =
         Some (if bool_decide (n < 5)%nat then pending else failed) ∧
       same_task entry r.
Proof.
  intros Hdb Hrej Hstored Hpending Hcount Hn.
  destruct (attempts_rejected env Hdb n w entry 0)
    as (r & Hr & Hrc & Hst & Hsame); try done; try lia.
  exists r. split; [done|]. split; [by rewrite Hrc|]. split; [|done].
  rewrite Hst. f_equal.
  destruct (bool_decide_reflect (n < 5)%nat);
    [rewrite bool_decide_eq_true_2 by lia
    |rewrite bool_decide_eq_false_2 by lia]; done.
Qed.

(** ** What a cycle sends and what it leaves alone *)

Section CycleFootprint.
Variable env : environment.
Implicit Types (w : world) (entry : appointmentCache.row).

Lemma db_update_appointmentCache_others st c w :
  let w' := (db_update_appointmentCache env st c w).2 in
  appts w' = appts w ∧ appts_seq w' = appts_seq w ∧
  intakeq_posts w' = intakeq_posts w.
Proof.
  unfold db_update_appointmentCache, db_execute.
  by destruct (db_fault env w _).
Qed.

Lemma record_failure_others entry error w :
  let w' := (record_failure env entry error w).2 in
  appts w' = appts w ∧ appts_seq w' = appts_seq w ∧
  intakeq_posts w' = intakeq_posts w.
Proof.
  rewrite record_failure_unfold. apply db_update_appointmentCache_others.
Qed.

Lemma same_appointment_refl a : same_appointment a a.
Proof. exists (appointments.intakeqId a). by destruct a. Qed.

Lemma appointments_kept_refl m : appointments_kept m m.
Proof.
  intros k. destruct (m !! k) as [a|] eqn:E; [|done].
  exists a. split; [done|apply same_appointment_refl].
Qed.

Lemma appointments_kept_trans m1 m2 m3 :
  appointments_kept m1 m2 → appointments_kept m2 m3 →
  appointments_kept m1 m3.
Proof.
  intros H12 H23 k. specialize (H12 k). specialize (H23 k).
  destruct (m1 !! k) as [a|].
  - destruct H12 as (a' & Ha' & v & ->). rewrite Ha' in H23.
    destruct H23 as (a'' & Ha'' & v' & ->).
    exists (appointments.with_intakeqId v' (appointments.with_intakeqId v a)).
    split; [done|]. by exists v'.
  - by rewrite H12 in H23.
Qed.

Lemma appointments_kept_alter v i m :
  appointments_kept m (alter (appointments.with_intakeqId v) i m).
Proof.
  intros k. rewrite lookup_alter. case_decide as Hk.
  - subst k. destruct (m !! i) as [a|]; cbn; [|done].
    eexists. split; [done|]. by exists v.
  - destruct (m !! k) as [a|]; [|done].
    exists a. split; [done|apply same_appointment_refl].
Qed.

Lemma db_update_appointments_footprint v i w :
  let w' := (db_update_appointments env v i w).2 in
  appointments_kept (appts w) (appts w') ∧ appts_seq w' = appts_seq w ∧
  intakeq_posts w' = intakeq_posts w.
Proof.
  unfold db_update_appointments, db_execute, throw.
  destruct v as [p|]; cbn; [|by split; [apply appointments_kept_refl|]].
  destruct (db_fault env w _); cbn; (split; [|done]);
    [apply appointments_kept_refl|apply appointments_kept_alter].
Qed.

(** One step sends at most one request, leaves the sequences alone and
    keeps every appointment. *)
Lemma syncSingleAppointment_footprint entry w :
  let w' := (syncSingleAppointment env entry w).2 in
  (intakeq_posts w ≤ intakeq_posts w' ≤ S (intakeq_posts w))%nat ∧
  appts_seq w' = appts_seq w ∧
  appointments_kept (appts w) (appts w').
Proof.
  cbn zeta. unfold syncSingleAppointment, try_catch.
  assert (∀ o w1,
    attempt_sync env entry w = (o, w1) →
    (intakeq_posts w ≤ intakeq_posts w1 ≤ S (intakeq_posts w))%nat ∧
    appts_seq w1 = appts_seq w ∧
    appointments_kept (appts w) (appts w1)) as Htry.
  { unfold attempt_sync, bind, eval, createAppointment, try_catch, throw,
      new_Date.
    intros o w1.
    destruct (JSON_parse env _) as [data|].
    2:{ intros [= _ <-]. split; [lia|]. split; [done|].
        apply appointments_kept_refl. }
    destruct (api_post_appointments env w data) as [response|].
    2:{ intros [= _ <-]. cbn. split; [lia|]. split; [done|].
        apply appointments_kept_refl. }
    destruct (get_property response "id") as [v|].
    2:{ intros [= _ <-]. cbn. split; [lia|]. split; [done|].
        apply appointments_kept_refl. }
    pose proof (db_update_appointments_footprint v
                  (appointmentCache.appointmentId entry) (count_post w))
      as (Hk & Hs & Hp).
    destruct (db_update_appointments env v _ (count_post w)) as [[[]|e] w2];
      cbn in Hk, Hs, Hp.
    2:{ intros [= _ <-]. rewrite Hp. split; [lia|]. done. }
    pose proof (db_update_appointmentCache_others
                  (set_synced (Date_now env w2))
                  (where_id (appointmentCache.id entry)) w2) as (Ha & Hs' & Hp').
    destruct (db_update_appointmentCache env _ _ w2) as [o' w3].
    cbn in Ha, Hs', Hp'. intros [= _ <-].
    rewrite Hp', Hp, Ha, Hs', Hs. split; [lia|]. done. }
  destruct (attempt_sync env entry w) as [[[]|e] w1] eqn:Hrun;
    destruct (Htry _ _ eq_refl) as (Hp & Hs & Hk); cbn; [done|].
  destruct (record_failure_others entry e w1) as (Ha' & Hs' & Hp').
  rewrite Hp', Hs', Ha'. done.
Qed.

Lemma for_of_footprint batch w :
  let w' := (for_of batch (syncSingleAppointment env) w).2 in
  (intakeq_posts w ≤ intakeq_posts w' ≤ intakeq_posts w + length batch)%nat ∧
  cache_seq w' = cache_seq w ∧ appts_seq w' = appts_seq w ∧
  appointmentCache.id <$> cache w' = appointmentCache.id <$> cache w ∧
  appointments_kept (appts w) (appts w').
Proof.
  revert w. induction batch as [|entry rest IH]; intros w; cbn zeta.
  { cbn. split; [lia|]. repeat split. apply appointments_kept_refl. }
  cbn [for_of]. unfold bind.
  destruct (syncSingleAppointment_footprint entry w) as (Hp & Hs & Hk).
  destruct (syncSingleAppointment_effect env entry w) as [Hseq Hc].
  assert (appointmentCache.id <$> cache (syncSingleAppointment env entry w).2
          = appointmentCache.id <$> cache w) as Hids.
  { destruct Hc as [->|(st & -> & _)]; [done|apply update_where_ids]. }
  destruct (syncSingleAppointment env entry w) as [[[]|e] w1];
    cbn in Hp, Hs, Hk, Hseq, Hids |- *.
  - destruct (IH w1) as (Hp' & Hseq' & Hs' & Hids' & Hk').
    split; [lia|]. split; [congruence|]. split; [congruence|].
    split; [congruence|]. by eapply appointments_kept_trans.
  - split; [lia|]. done.
Qed.

Lemma length_select_pending (n : nat) rows :
  length (select_where (where_syncStatus pending) (Some n) rows)
  = (n `min` count_status pending rows)%nat.
Proof.
  unfold select_where. rewrite length_take. f_equal.
  unfold count_status. f_equal.
  apply list_filter_iff. intros r. cbn. apply bool_decide_spec.
Qed.

End CycleFootprint.

(** X11.  A cycle sends at most one request per pending task and at most ten
    in all; synced and failed tasks are never sent.  On a store without
    pending tasks it sends nothing and changes no table. *)
Theorem cycle_sends_at_most_ten env w :
  let w' := (syncPendingAppointments env w).2 in
  (intakeq_posts w ≤ intakeq_posts w'
   ≤ intakeq_posts w + 10 `min` count_status pending (cache w))%nat ∧
  (count_status pending (cache w) = 0%nat → same_tables w w').
Proof.
  cbn zeta.
  destruct (db_fault env w (SelectAppointmentCache (where_syncStatus pending)
                              (Some 10%nat))) as [e|] eqn:Hfault.
  - assert (syncPendingAppointments env w = (Returned tt, count_statement w))
      as ->.
    { unfold syncPendingAppointments, try_catch, bind,
        db_select_appointmentCache, db_execute, ret. by rewrite Hfault. }
    cbn. split; [lia|]. by intros _.
  - rewrite syncPendingAppointments_run by done. cbn [snd].
    pose proof (length_select_pending 10 (cache w)) as Hlen.
    destruct (for_of_footprint env
                (select_where (where_syncStatus pending) (Some 10%nat) (cache w))
                (count_statement w)) as (Hp & _).
    cbn in Hp. split; [lia|].
    intros Hnone. rewrite Hnone in Hlen.
    destruct (select_where _ _ (cache w)); [|done]. by cbn.
Qed.

(** X12.  A cycle creates and deletes nothing.  It leaves both sequences as
    they are, keeps the tasks of the table, [id] for [id], and keeps every
    appointment, changed at most in its [intakeqId]. *)
Theorem cycle_keeps_tasks_and_appointments env w :
  let w' := (syncPendingAppointments env w).2 in
  cache_seq w' = cache_seq w ∧ appts_seq w' = appts_seq w ∧
  appointmentCache.id <$> cache w' ≡ₚ appointmentCache.id <$> cache w ∧
  appointments_kept (appts w) (appts w').
Proof.
  cbn zeta.
  destruct (db_fault env w (SelectAppointmentCache (where_syncStatus pending)
                              (Some 10%nat))) as [e|] eqn:Hfault.
  - assert (syncPendingAppointments env w = (Returned tt, count_statement w))
      as ->.
    { unfold syncPendingAppointments, try_catch, bind,
        db_select_appointmentCache, db_execute, ret. by rewrite Hfault. }
    cbn. split; [done|]. split; [done|]. split; [done|].
    apply appointments_kept_refl.
  - rewrite syncPendingAppointments_run by done. cbn [snd].
    destruct (for_of_footprint env
                (select_where (where_syncStatus pending) (Some 10%nat) (cache w))
                (count_statement w)) as (_ & ? & ? & Hids & ?).
    cbn in Hids. by rewrite Hids.
Qed.

(** ** The booking route *)

Section BookingProperties.
Variable env : environment.
Implicit Types (w : world).

Lemma missing_field_decide clientId providerId dateTime type format :
  bool_decide (clientId = 0) || bool_decide (providerId = 0) ||
  bool_decide (dateTime = ""%string) || bool_decide (type = ""%string) ||
  bool_decide (format = ""%string) = true
  ↔ missing_field clientId providerId dateTime type format.
Proof.
  unfold missing_field.
  rewrite !orb_true_iff, !bool_decide_eq_true. tauto.
Qed.

Lemma cacheAppointment_posts appointmentId payload w :
  intakeq_posts (cacheAppointment env appointmentId payload w).2
  = intakeq_posts w.
Proof.
  unfold cacheAppointment, db_insert_appointmentCache, db_execute.
  destruct (db_fault env w _); [done|].
  destruct (JSON_stringify env payload); [|done].
  cbn. by destruct (appts w !! appointmentId).
Qed.

(** The route, once the body is complete and the appointment is in: what is
    left is the enqueue. *)
Lemma book_appointment_after_insert clientId providerId dateTime type format w :
  ¬ missing_field clientId providerId dateTime type format →
  type ∈ appointmentTypeEnum → format ∈ appointmentFormatEnum →
  db_fault env w
    (InsertAppointments
       (booked_values clientId providerId dateTime type format)) = None →
  Routes.book_appointment env clientId providerId dateTime type format w =
  match cacheAppointment env (appts_seq w)
          (booked_payload clientId providerId dateTime type)
          (after_appointment_insert
             (booked_row clientId providerId dateTime type format) w) with
  | (Returned _, w') => (Returned 200, w')
  | (Threw _, w') => (Returned 500, w')
  end.
Proof.
  intros Hfields Htype Hformat Hfault.
  unfold Routes.book_appointment, try_catch, bind, ret.
  destruct (_ || _) eqn:Hmiss; [by apply missing_field_decide in Hmiss|].
  unfold db_insert_appointments, db_execute.
  fold (booked_values clientId providerId dateTime type format).
  rewrite Hfault. cbn [v_type v_format].
  rewrite !bool_decide_eq_true_2 by done. cbn [andb].
  by destruct (cacheAppointment _ _ _ _) as [[[]|e] w2].
Qed.

(** X13.  What the booking route answers.  It never throws and never sends a
    request to IntakeQ.  It answers 400, having issued no statement, exactly
    when a field is missing; otherwise it answers 200 when both inserts go
    through and 500 when one of them does not. *)
Theorem booking_always_answers clientId providerId dateTime type format w :
  let res := Routes.book_appointment env clientId providerId dateTime type
               format w in
  (res.1 = Returned 200 ∨ res.1 = Returned 400 ∨ res.1 = Returned 500) ∧
  intakeq_posts res.2 = intakeq_posts w ∧
  (res.1 = Returned 400 ↔
   missing_field clientId providerId dateTime type format) ∧
  (res.1 = Returned 400 → res.2 = w).
Proof.
  cbn zeta. unfold Routes.book_appointment, try_catch, bind, ret.
  destruct (_ || _) eqn:Hmiss.
  { apply missing_field_decide in Hmiss. cbn. split; [auto|]. done. }
  assert (¬ missing_field clientId providerId dateTime type format) as Hno.
  { intros H. apply missing_field_decide in H. congruence. }
  unfold db_insert_appointments, db_execute.
  destruct (db_fault env w _); cbn.
  { split; [auto|]. split; [done|]. split; [|done].
    split; [done|]. intros H. by destruct Hno. }
  destruct (_ && _); cbn.
  2:{ split; [auto|]. split; [done|]. split; [|done].
      split; [done|]. intros H. by destruct Hno. }
  match goal with
  | |- context [cacheAppointment env ?i ?p ?w1] =>
      pose proof (cacheAppointment_posts i p w1) as Hposts;
      destruct (cacheAppointment env i p w1) as [[[]|e] w2]
  end.
  all: cbn in Hposts |- *; split; [auto|]; split; [done|]; split; [|done].
  all: split; [done|]; intros H; by destruct Hno.
Qed.

(** X14.  A booking can half succeed.  When the appointment is inserted and
    the enqueue is rejected (the payload has no JSON text or the database
    refuses the row), the route answers 500, yet the appointment stays in
    the table, and no task has been added that would send it to
    IntakeQ. *)
Theorem rejected_enqueue_leaves_the_appointment
    clientId providerId dateTime type format w :
  let r := booked_row clientId providerId dateTime type format in
  let payload := booked_payload clientId providerId dateTime type in
  let w1 := after_appointment_insert r w in
  ¬ missing_field clientId providerId dateTime type format →
  type ∈ appointmentTypeEnum → format ∈ appointmentFormatEnum →
  db_fault env w
    (InsertAppointments
       (booked_values clientId providerId dateTime type format)) = None →
  JSON_stringify env payload = None ∨
  db_fault env w1
    (InsertAppointmentCache (appts_seq w) (JSON_stringify env payload))
  ≠ None →
  ∃ w', Routes.book_appointment env clientId providerId dateTime type format w
        = (Returned 500, w') ∧
        appts w' !! appts_seq w = Some r ∧
        cache w' = cache w.
Proof.
  cbn zeta. intros Hfields Htype Hformat Hfault Hreject.
  rewrite book_appointment_after_insert by done.
  unfold cacheAppointment, db_insert_appointmentCache, db_execute.
  destruct (db_fault env (after_appointment_insert _ w) _) as [e|] eqn:Hf2.
  - eexists. split; [done|]. cbn. by rewrite lookup_insert_eq.
  - destruct Hreject as [Hnone|Hne]; [|done].
    rewrite Hnone. cbn. eexists. split; [done|]. cbn.
    by rewrite lookup_insert_eq.
Qed.

End BookingProperties.

Arguments Routes.durations : simpl never.

(** X15.  What a booking answered with 200 has stored.  The type and format
    are members of their enums, the appointment has the duration the table
    gives for its type (the default of 60 is never used), and exactly one
    task was added for it: pending, with no attempt, holding the JSON text
    of a payload whose service name is one of the three names with a
    space. *)
Theorem successful_booking_is_well_formed env
    clientId providerId dateTime type format w w' :
  Routes.book_appointment env clientId providerId dateTime type format w
  = (Returned 200, w') →
  type ∈ appointmentTypeEnum ∧ format ∈ appointmentFormatEnum ∧
  (∃ d, Routes.durations !! type = Some d ∧
        appointments.duration <$> appts w' !! appts_seq w = Some d) ∧
  appts w' !! appts_seq w
  = Some (booked_row clientId providerId dateTime type format) ∧
  Routes.replace_underscore type ∈
    ["comprehensive evaluation"; "follow up"; "ketamine consultation"]%string ∧
  ∃ r, cache w' = cache w ++ [r] ∧
       appointmentCache.appointmentId r = appts_seq w ∧
       appointmentCache.syncStatus r = Some pending ∧
       appointmentCache.retryCount r = Some 0 ∧
       JSON_stringify env (booked_payload clientId providerId dateTime type)
       = Some (appointmentCache.payload r).
Proof.
  unfold Routes.book_appointment, try_catch, bind, ret.
  destruct (_ || _); [intros [= ?]; lia|].
  unfold db_insert_appointments, db_execute.
  destruct (db_fault env w _); [intros [= ?]; lia|].
  cbn [v_type v_format].
  destruct (bool_decide_reflect (type ∈ appointmentTypeEnum)) as [Htype|];
    [|intros [= ?]; lia].
  destruct (bool_decide_reflect (format ∈ appointmentFormatEnum)) as [Hformat|];
    [|intros [= ?]; lia].
  cbn [andb].
  fold (booked_payload clientId providerId dateTime type).
  unfold cacheAppointment, db_insert_appointmentCache, db_execute.
  match goal with |- context [db_fault env ?w1 ?s] =>
    destruct (db_fault env w1 s) end; [intros [= ?]; lia|].
  destruct (JSON_stringify env _) as [text|]; [|intros [= ?]; lia].
  cbn. rewrite lookup_insert_eq. intros [= <-]. cbn.
  rewrite lookup_insert_eq.
  split; [done|]. split; [done|].
  assert (∃ d, Routes.durations !! type = Some d ∧
               Routes.replace_underscore type ∈
                 ["comprehensive evaluation"; "follow up";
                  "ketamine consultation"]%string) as (d & Hd & Hname).
  { unfold appointmentTypeEnum in Htype.
    repeat (apply elem_of_cons in Htype as [->|Htype]);
      [..|by apply elem_of_nil in Htype];
      eexists; (split; [reflexivity|]); cbn.
    - apply list_elem_of_here.
    - apply list_elem_of_further, list_elem_of_here.
    - do 2 apply list_elem_of_further. apply list_elem_of_here. }
  split; [exists d; by rewrite Hd|].
  split; [done|]. split; [done|].
  eexists. by repeat split.
Qed.

(** ** Accepted insurance *)

Section Insurance.
Import AvailityService.
Implicit Types (s t a b x : string).

Lemma toLowerCase_app a b :
  toLowerCase (a +:+ b) = toLowerCase a +:+ toLowerCase b.
Proof. induction a as [|c a IH]; simpl; [done|by rewrite IH]. Qed.

Lemma prefix_app t s b :
  String.prefix t s = true → String.prefix t (s +:+ b) = true.
Proof.
  revert s. induction t as [|c t IH]; intros s; [by destruct s, b|].
  destruct s as [|d s]; simpl; [done|].
  destruct (ascii_dec c d); [apply IH|done].
Qed.

Lemma prefix_refl_app t b : String.prefix t (t +:+ b) = true.
Proof.
  induction t as [|c t IH]; simpl; [by destruct b|].
  by destruct (ascii_dec c c).
Qed.

Lemma includes_unfold s t :
  includes s t =
  String.prefix t s ||
  match s with
  | EmptyString => false
  | String _ rest => includes rest t
  end.
Proof. by destruct s. Qed.

Lemma includes_app_r s t b : includes s t = true → includes (s +:+ b) t = true.
Proof.
  induction s as [|c s IH]; rewrite (includes_unfold _ t).
  - rewrite orb_false_r. intros H. rewrite includes_unfold.
    apply orb_true_iff. left. by apply (prefix_app t "" b).
  - intros [H|H]%orb_true_iff; rewrite includes_unfold;
      apply orb_true_iff.
    + left. by apply (prefix_app t (String c s) b).
    + right. simpl. by apply IH.
Qed.

Lemma includes_app_l a s t : includes s t = true → includes (a +:+ s) t = true.
Proof.
  intros H. induction a as [|c a IH]; simpl; [done|].
  apply orb_true_iff. by right.
Qed.

Lemma includes_middle a t b : includes (a +:+ t +:+ b) t = true.
Proof.
  apply includes_app_l. rewrite includes_unfold.
  apply orb_true_iff. left. apply prefix_refl_app.
Qed.

(** X16.  Names with HMO or Medicaid in them are never accepted.  Whatever
    surrounds it and in whatever letter case it is written, a company name
    in which [hmo] or [medicaid] occurs is rejected by [isAccepted], for
    every plan type, also when the name is one of the in-network
    companies. *)
Theorem hmo_and_medicaid_are_never_accepted a x b planType :
  toLowerCase x = "hmo"%string ∨ toLowerCase x = "medicaid"%string →
  isAccepted (a +:+ x +:+ b) planType = false.
Proof.
  intros Hx. unfold isAccepted. cbn zeta.
  rewrite !toLowerCase_app.
  destruct Hx as [-> | ->].
  - by rewrite includes_middle.
  - rewrite (includes_middle _ "medicaid"). by rewrite orb_true_r.
Qed.

Lemma existsb_includes_mono s s' :
  (∀ t, includes s t = true → includes s' t = true) →
  existsb (λ company, includes s company) inNetworkCompanies = true →
  existsb (λ company, includes s' company) inNetworkCompanies = true.
Proof.
  intros Hmono. rewrite !existsb_exists.
  intros (t & Hin & Ht). exists t. split; [done|by apply Hmono].
Qed.

(** X17.  In-network is decided by occurrence, without regard to letter
    case.  A name that is in network stays in network with any text before
    and after it, and two names with the same lower-case form get the same
    answer from [isInNetwork] and, whatever the plan types, from
    [isAccepted]. *)
Theorem in_network_by_occurrence a x b y planType planType' :
  (isInNetwork x = true → isInNetwork (a +:+ x +:+ b) = true) ∧
  (toLowerCase x = toLowerCase y →
   isInNetwork x = isInNetwork y ∧
   isAccepted x planType = isAccepted y planType').
Proof.
  split.
  - unfold isInNetwork. rewrite !toLowerCase_app.
    apply existsb_includes_mono. intros t Ht.
    by apply includes_app_l, includes_app_r.
  - intros Heq. unfold isAccepted, isInNetwork. cbn zeta. by rewrite Heq.
Qed.

End Insurance.

Lemma hmo_and_medicaid_are_never_accepted_witness :
  AvailityService.toLowerCase "HMO" = "hmo"%string ∧
  AvailityService.isInNetwork "Aetna" = true ∧
  AvailityService.isAccepted "Aetna HMO Select" (Some "PPO"%string) = false.
Proof.
  split; [reflexivity|]. split; [reflexivity|].
  apply (hmo_and_medicaid_are_never_accepted "Aetna " "HMO" " Select").
  left. reflexivity.
Defined.

Lemma in_network_by_occurrence_witness :
  AvailityService.isInNetwork "Cigna" = true ∧
  AvailityService.isInNetwork "The Cigna Group" = true ∧
  AvailityService.isAccepted "FLORIDA BLUE" None
  = AvailityService.isAccepted "Florida Blue" (Some "HMO"%string).
Proof.
  destruct (in_network_by_occurrence "The " "Cigna" " Group" "Cigna" None None)
    as [Hmono _].
  destruct (in_network_by_occurrence "" "FLORIDA BLUE" "" "Florida Blue"
              None (Some "HMO"%string)) as [_ Hcase].
  split; [reflexivity|]. split; [exact (Hmono eq_refl)|].
  exact (proj2 (Hcase eq_refl)).
Defined.

(** ** The access token *)

Section AccessToken.
Import AvailityService.
Variable tenv : token_environment.
Implicit Types (s : service).


(** X19.  What [getAccessToken] does with its cache.  It answers without a
    request only with a cached token whose expiry is still ahead, and then
    changes nothing; otherwise it sends exactly one request, and either
    returns the new token, which is then the cached one, or throws its fixed
    error and leaves the cache as it was. *)
Theorem getAccessToken_uses_only_unexpired_tokens s :
  let res := getAccessToken tenv s in
  (token_requests res.2 = token_requests s ∧
   ∃ cached, tokenCache s = Some cached ∧ clock tenv s < expiresAt cached ∧
             res = (Returned (token cached), s)) ∨
  (token_requests res.2 = S (token_requests s) ∧
   match res.1 with
   | Returned tok =>
       ∃ cached, tokenCache res.2 = Some cached ∧ token cached = tok
   | Threw error =>
       tokenCache res.2 = tokenCache s ∧
       message error = Some "Failed to authenticate with Availity"%string
   end).
Proof.
  cbn zeta.
  assert (token_requests (fetch_token tenv s).2 = S (token_requests s) ∧
          match (fetch_token tenv s).1 with
          | Returned tok =>
              ∃ cached, tokenCache (fetch_token tenv s).2 = Some cached ∧
                        token cached = tok
          | Threw error =>
              tokenCache (fetch_token tenv s).2 = tokenCache s ∧
              message error
              = Some "Failed to authenticate with Availity"%string
          end) as Hfetch.
  { unfold fetch_token. destruct (post_token tenv s); cbn; eauto. }
  unfold getAccessToken. destruct (tokenCache s) as [cached|] eqn:Hcache.
  - destruct (bool_decide_reflect (expiresAt cached > clock tenv s)).
    + left. split; [done|]. exists cached. split; [done|]. split; [lia|done].
    + by right.
  - by right.
Qed.

End AccessToken.


(** ** The further properties at concrete inputs *)

Lemma tasks_keep_their_identity_witness :
  let s := Server.run Scenario.env_down
             [Server.Book 7 3 "2026-01-05T10:30" "follow_up" "telehealth";
              Server.Worker] in
  ∃ r r', r ∈ cache (Server.db s) ∧
          r' ∈ cache (Server.db (Server.perform Scenario.env_down s
                                   Server.Worker)) ∧
          appointmentCache.retryCount r = Some 0 ∧
          appointmentCache.retryCount r' = Some 1 ∧
          same_task r r'.
Proof.
  cbn zeta.
  assert (∃ r, cache (Server.db (Server.run Scenario.env_down
                 [Server.Book 7 3 "2026-01-05T10:30" "follow_up" "telehealth";
                  Server.Worker])) = [r] ∧
               appointmentCache.retryCount r = Some 0) as (r & Hcache & Hcount).
  { eexists. split; [vm_compute; reflexivity|reflexivity]. }
  assert (r ∈ cache (Server.db (Server.run Scenario.env_down
                 [Server.Book 7 3 "2026-01-05T10:30" "follow_up" "telehealth";
                  Server.Worker]))) as Hin
    by (rewrite Hcache; apply list_elem_of_here).
  destruct (tasks_keep_their_identity Scenario.env_down _ Server.Worker r Hin)
    as (r' & Hr' & Hsame).
  exists r, r'. split; [exact Hin|]. split; [exact Hr'|].
  split; [exact Hcount|]. split; [|exact Hsame].
  vm_compute in Hr'. apply list_elem_of_singleton in Hr'. by subst r'.
Defined.

Lemma synced_is_terminal_witness :
  let s := Server.run Scenario.env_up_with_id Scenario.booking_then_five_cycles in
  Server.reachable Scenario.env_up_with_id s ∧
  ∃ r, cache (Server.db s) !! 0%nat = Some r ∧
       appointmentCache.syncStatus r = Some synced ∧
       cache (Server.db (Server.perform Scenario.env_up_with_id s Server.RetryFailed))
         !! 0%nat = Some r.
Proof.
  cbn zeta.
  assert (Server.reachable Scenario.env_up_with_id
            (Server.run Scenario.env_up_with_id Scenario.booking_then_five_cycles))
    as Hreach by (by eexists).
  split; [exact Hreach|]. eexists.
  split; [vm_compute; reflexivity|]. split; [reflexivity|].
  apply synced_is_terminal; [exact Hreach|vm_compute; reflexivity|reflexivity].
Defined.

Lemma failed_is_terminal_but_for_reset_witness :
  let s := Server.run Scenario.env_down Scenario.booking_then_five_cycles in
  Server.reachable Scenario.env_down s ∧
  ∃ r, cache (Server.db s) !! 0%nat = Some r ∧
       appointmentCache.syncStatus r = Some failed ∧
       cache (Server.db (Server.perform Scenario.env_down s Server.Worker))
         !! 0%nat = Some r.
Proof.
  cbn zeta.
  assert (Server.reachable Scenario.env_down
            (Server.run Scenario.env_down Scenario.booking_then_five_cycles))
    as Hreach by (by eexists).
  split; [exact Hreach|]. eexists.
  split; [vm_compute; reflexivity|]. split; [reflexivity|].
  apply failed_is_terminal_but_for_reset;
    [exact Hreach|discriminate|vm_compute; reflexivity|reflexivity].
Defined.

Lemma handlers_leave_pending_tasks_witness :
  let s := Server.run Scenario.env_down
             [Server.Book 7 3 "2026-01-05T10:30" "follow_up" "telehealth"] in
  ∃ r, cache (Server.db s) !! 0%nat = Some r ∧
       appointmentCache.syncStatus r = Some pending ∧
       cache (Server.db (Server.perform Scenario.env_down s Server.RetryFailed))
         !! 0%nat = Some r.
Proof.
  cbn zeta. eexists.
  split; [vm_compute; reflexivity|]. split; [reflexivity|].
  apply handlers_leave_pending_tasks;
    [discriminate|vm_compute; reflexivity|reflexivity].
Defined.

Lemma syncedAt_marks_synced_tasks_witness :
  let s := Server.run Scenario.env_up_with_id Scenario.booking_then_five_cycles in
  Server.reachable Scenario.env_up_with_id s ∧
  ∃ r, r ∈ cache (Server.db s) ∧
       appointmentCache.syncStatus r = Some synced ∧
       appointmentCache.syncedAt r ≠ None.
Proof.
  cbn zeta.
  assert (Server.reachable Scenario.env_up_with_id
            (Server.run Scenario.env_up_with_id Scenario.booking_then_five_cycles))
    as Hreach by (by eexists).
  split; [exact Hreach|].
  assert (∃ r, cache (Server.db (Server.run Scenario.env_up_with_id
                                   Scenario.booking_then_five_cycles)) = [r] ∧
               appointmentCache.syncStatus r = Some synced)
    as (r & Hcache & Hsynced).
  { eexists. split; [vm_compute; reflexivity|reflexivity]. }
  assert (r ∈ cache (Server.db (Server.run Scenario.env_up_with_id
                                  Scenario.booking_then_five_cycles))) as Hin
    by (rewrite Hcache; apply list_elem_of_here).
  exists r. split; [exact Hin|]. split; [exact Hsynced|].
  exact (proj1 (proj2 (syncedAt_marks_synced_tasks Scenario.env_up_with_id _ r
                         Hreach Hin)) Hsynced).
Defined.

Lemma task_ids_are_unique_witness :
  let s := Server.run Scenario.env_down
             [Server.Book 7 3 "2026-01-05T10:30" "follow_up" "telehealth";
              Server.Book 8 3 "2026-01-05T11:00" "follow_up" "in_person"] in
  Server.reachable Scenario.env_down s ∧
  appointmentCache.id <$> cache (Server.db s) = [1; 2] ∧
  NoDup (appointmentCache.id <$> cache (Server.db s)).
Proof.
  cbn zeta.
  assert (Server.reachable Scenario.env_down
            (Server.run Scenario.env_down
               [Server.Book 7 3 "2026-01-05T10:30" "follow_up" "telehealth";
                Server.Book 8 3 "2026-01-05T11:00" "follow_up" "in_person"]))
    as Hreach by (by eexists).
  split; [exact Hreach|]. split; [vm_compute; reflexivity|].
  exact (proj1 (task_ids_are_unique Scenario.env_down _ Hreach)).
Defined.

Lemma stats_count_every_task_witness :
  let s := Server.run Scenario.env_down Scenario.booking_then_five_cycles in
  db_available Scenario.env_down ∧
  Server.reachable Scenario.env_down s ∧
  ∃ st, (getCacheStats_interleaved Scenario.env_down count_statement id
           (Server.db s)).1 = Returned st ∧
        Stats.failed st = 1%nat ∧ Stats.total st = 1%nat.
Proof.
  cbn zeta.
  assert (db_available Scenario.env_down) as Hdb by (by intros ? ?).
  assert (Server.reachable Scenario.env_down
            (Server.run Scenario.env_down Scenario.booking_then_five_cycles))
    as Hreach by (by eexists).
  split; [exact Hdb|]. split; [exact Hreach|].
  destruct (stats_count_every_task Scenario.env_down _ count_statement id
              Hdb Hreach (λ w, eq_refl) (λ w, eq_refl))
    as ((st & Hst & _ & _ & Hf & Ht) & _).
  exists st. split; [exact Hst|]. split.
  - rewrite Hf. vm_compute. reflexivity.
  - rewrite Ht. vm_compute. reflexivity.
Defined.

Lemma reset_moves_failed_to_pending_witness :
  let w := Scenario.store [Scenario.task 1 failed 5;
                           Scenario.task 2 synced 1;
                           Scenario.task 3 pending 2] in
  db_available Scenario.env_down ∧
  ∃ before after,
    (getCacheStats Scenario.env_down w).1 = Returned before ∧
    (getCacheStats Scenario.env_down
       (retryFailedSyncs Scenario.env_down w).2).1 = Returned after ∧
    Stats.failed after = 0%nat ∧
    Stats.pending after = (Stats.pending before + Stats.failed before)%nat.
Proof.
  cbn zeta.
  assert (db_available Scenario.env_down) as Hdb by (by intros ? ?).
  split; [exact Hdb|].
  destruct (reset_moves_failed_to_pending Scenario.env_down
              (Scenario.store [Scenario.task 1 failed 5;
                               Scenario.task 2 synced 1;
                               Scenario.task 3 pending 2]) Hdb)
    as (before & after & Hb & Ha & Hf & Hp & _).
  exists before, after. split; [exact Hb|]. split; [exact Ha|].
  split; [exact Hf|exact Hp].
Defined.

Lemma five_failures_exhaust_a_task_witness :
  let entry := Scenario.task 1 pending 0 in
  let w := Scenario.store [entry] in
  db_available Scenario.env_down ∧
  downstream_rejects Scenario.env_down entry ∧
  (∃ r, lookup_id 1 (cache (attempts Scenario.env_down 4 1 w)) = Some r ∧
        appointmentCache.retryCount r = Some 4 ∧
        appointmentCache.syncStatus r = Some pending) ∧
  (∃ r, lookup_id 1 (cache (attempts Scenario.env_down 5 1 w)) = Some r ∧
        appointmentCache.retryCount r = Some 5 ∧
        appointmentCache.syncStatus r = Some failed).
Proof.
  cbn zeta.
  assert (db_available Scenario.env_down) as Hdb by (by intros ? ?).
  assert (downstream_rejects Scenario.env_down
            (Scenario.task 1 pending 0)) as Hrej.
  { eexists. split; [reflexivity|]. intros w. eexists. reflexivity. }
  split; [exact Hdb|]. split; [exact Hrej|]. split.
  - destruct (five_failures_exhaust_a_task Scenario.env_down
                (Scenario.store [Scenario.task 1 pending 0])
                (Scenario.task 1 pending 0) 4 Hdb Hrej eq_refl eq_refl
                eq_refl) as (r & Hr & Hn & Hs & _); [lia|].
    exists r. split; [exact Hr|]. split; [exact Hn|exact Hs].
  - destruct (five_failures_exhaust_a_task Scenario.env_down
                (Scenario.store [Scenario.task 1 pending 0])
                (Scenario.task 1 pending 0) 5 Hdb Hrej eq_refl eq_refl
                eq_refl) as (r & Hr & Hn & Hs & _); [lia|].
    exists r. split; [exact Hr|]. split; [exact Hn|exact Hs].
Defined.

Lemma rejected_enqueue_leaves_the_appointment_witness :
  let env := Scenario.environment_of
               (λ _ _, Returned (as_object Scenario.confirmed))
               (λ _ s, match s with
                       | InsertAppointmentCache _ _ =>
                           Some {| message := Some "connection terminated" |}
                       | _ => None
                       end) in
  ∃ w', Routes.book_appointment env 7 3 "2026-01-05T10:30" "follow_up"
          "telehealth" empty_world = (Returned 500, w') ∧
        is_Some (appts w' !! 1) ∧ cache w' = [].
Proof.
  intros env.
  destruct (rejected_enqueue_leaves_the_appointment env 7 3
              "2026-01-05T10:30" "follow_up" "telehealth" empty_world)
    as (w' & Hrun & Happt & Hcache).
  - intros [H|[H|[H|[H|H]]]]; discriminate H.
  - apply list_elem_of_further, list_elem_of_here.
  - apply list_elem_of_here.
  - reflexivity.
  - right. discriminate.
  - exists w'. split; [exact Hrun|]. split; [by eexists|exact Hcache].
Defined.

Lemma successful_booking_is_well_formed_witness :
  ∃ w', Routes.book_appointment Scenario.env_up 7 3 "2026-01-05T10:30"
          "ketamine_consultation" "in_person" empty_world
        = (Returned 200, w') ∧
        appointments.duration <$> appts w' !! 1 = Some 30 ∧
        Routes.replace_underscore "ketamine_consultation"
        = "ketamine consultation"%string.
Proof.
  eexists. split; [reflexivity|].
  destruct (successful_booking_is_well_formed Scenario.env_up 7 3
              "2026-01-05T10:30" "ketamine_consultation" "in_person"
              empty_world _ eq_refl)
    as (_ & _ & (d & Hd & Hdur) & _).
  split; [|reflexivity].
  vm_compute in Hd. injection Hd as <-. exact Hdur.
Defined.
